(** * GEGL: graph wiring, pull evaluation, the layer meta-operation and the
      generated Porter-Duff compositors

    A shallow embedding of
    - the connection graph and the evaluation visitor of the graph engine,
    - [operations/meta/layer.c] (the layer meta-operation),
    - the C code emitted by the generators [svg-12-porter-duff.rb] and
      [other-blend.rb] (the scalar [process] and the SIMD
      [process_gegl4float]). *)

From stdpp Require Import gmap strings list fin_maps relations.
From Stdlib Require Import ZArith.

Set Default Proof Using "Type".

(** * Part I: the programs *)

(** ** Connection graph *)

Module Graph.

(** Nodes are identified by number; a pad is its owning node and its name. *)
Abbreviation Node := nat.
Abbreviation Pad := (nat * string)%type.

Definition owner (p : Pad) : Node := p.1.

(** Modelled from the spec: the connection graph, whose code is not part
    of the sources at hand.  [edges] maps an input pad to the output pad
    feeding it (an input pad has at most one source); [consumer_count] is
    kept per output pad. *)
Record t := Build {
  edges : gmap Pad Pad;
  consumer_count : gmap Pad Z
}.

Definition empty : t := {| edges := ∅; consumer_count := ∅ |}.

Inductive ConnectError := CycleError | AlreadyConnectedError.

Definition links (g : t) : list (Pad * Pad) := map_to_list (edges g).

Definition count (g : t) (o : Pad) : Z := default 0%Z (consumer_count g !! o).

(** Modelled from the spec: the search behind [CycleError] (the graph
    library is not part of the sources at hand).  Bounded search along the
    direction of data flow: from node [x], can node [y] be reached through
    at most [fuel] connections? *)
Fixpoint reach (E : list (Pad * Pad)) (fuel : nat) (x y : Node) : bool :=
  bool_decide (x = y) ||
  match fuel with
  | 0 => false
  | S f =>
      existsb (λ e, bool_decide (owner e.2 = x) && reach E f (owner e.1) y) E
  end.

(** Modelled from the spec: "the new edge would create a cycle".  The edge
    [o -> i] closes a cycle when the consumer already feeds the producer (or
    is the producer itself). *)
Definition would_cycle (g : t) (o i : Pad) : bool :=
  reach (links g) (length (links g)) (owner i) (owner o).

(** Modelled from the spec: [connect(output_pad, input_pad)] of the
    connection graph (the graph library is not part of the sources at hand).
    It fails with [CycleError] if the new edge would create a cycle, or
    [AlreadyConnectedError] if the input pad already has a source; on
    success it increments the output pad's consumer count and records the
    edge.  The graph after the call is returned in either case. *)
Definition connect (o i : Pad) (g : t) : t * option ConnectError :=
  if would_cycle g o i then (g, Some CycleError)
  else match edges g !! i with
       | Some _ => (g, Some AlreadyConnectedError)
       | None =>
           ({| edges := <[i := o]> (edges g);
               consumer_count := <[o := (count g o + 1)%Z]> (consumer_count g) |},
            None)
       end.

(** A sequence of [connect] calls, failed calls included. *)
Definition connect_all (calls : list (Pad * Pad)) (g : t) : t :=
  foldl (λ g c, (connect c.1 c.2 g).1) g calls.

(** Declarative reading of the wiring: data flows from node [x] to node [y]
    when an output pad of [x] feeds an input pad of [y]. *)
Definition flows (g : t) (x y : Node) : Prop :=
  ∃ i o, edges g !! i = Some o ∧ owner o = x ∧ owner i = y.

Definition acyclic (g : t) : Prop := ∀ x, ¬ tc (flows g) x x.

Definition closes_cycle (g : t) (o i : Pad) : Prop :=
  rtc (flows g) (owner i) (owner o).

(** Number of input pads fed by the output pad [o]. *)
Definition fan_out (g : t) (o : Pad) : nat :=
  length (filter (λ e, e.2 = o) (links g)).

(** A walk lists the nodes it leaves, in order. *)
Inductive walk (g : t) : list Node → Node → Node → Prop :=
  | walk_nil x : walk g [] x x
  | walk_cons x y z l : flows g x y → walk g l y z → walk g (x :: l) x z.


(** A chain [1 -> 2 -> 3]: closing it back into node 1 is refused, a second
    source for an input pad is refused, and the graph is left as it was. *)
Definition chain3 : t :=
  connect_all [((1, "output"), (2, "input")); ((2, "output"), (3, "input"))]%string empty.

End Graph.

(** ** Evaluation visitor *)

Module Visitor.

Import Graph.

(** What one evaluation pass can end with. *)
Inductive Res (A : Type) :=
  | Ok (a : A)
  | OperationComputeError (at_pad : Pad)
  | OutOfFuel.
Arguments Ok {A} a.
Arguments OperationComputeError {A} at_pad.
Arguments OutOfFuel {A}.

(** The log kept during a pass: a [compute] invocation for an output pad,
    the consumption of an output pad's value by an input pad (with whether
    the buffer was released at that step), and the warning for a source that
    resolved to an absent buffer. *)
Inductive Event :=
  | EvCompute (p : Pad)
  | EvConsume (src sink : Pad) (released : bool)
  | EvMissingBuffer (sink : Pad).

Section visitor.

Context {Buffer : Type}.

(** Modelled from the spec: the operation capability of the nodes (the
    node and operation classes are not part of the sources at hand): the
    ordered input pads of a node, its [compute] for a named output pad
    ([None]: the computation failed), and whether a node tolerates an absent
    input silently. *)
Record Ops := {
  input_pads : Node → list string;
  compute : Node → string → list (string * option Buffer) → option Buffer;
  awaits_external : Node → bool
}.

(** Modelled from the spec: the state of a pass of the evaluation visitor,
    which is not part of the sources at hand: the pads resolved so far with
    their cached buffer (absent once released), the live consumer counts,
    and the log. *)
Record Pass := {
  resolved : gmap Pad (option Buffer);
  pending : gmap Pad Z;
  trace : list Event
}.

(** Modelled from the spec: a pass starts with nothing resolved and the
    consumer counts of the graph. *)
Definition new_pass (g : Graph.t) : Pass :=
  {| resolved := ∅; pending := consumer_count g; trace := [] |}.

Definition pending_count (st : Pass) (o : Pad) : Z :=
  default 0%Z (pending st !! o).

Variable ops : Ops.
Variable g : Graph.t.

(** Modelled from the spec: step 2 of [resolve] for one connected input
    pad, once its source is resolved to [b]: the source's consumer count is
    decremented and, if it reaches zero, the source pad's buffer is
    released. *)
Definition consume (src sink : Pad) (b : option Buffer) (st : Pass) : Pass :=
  let c := (pending_count st src - 1)%Z in
  let released := bool_decide (c = 0%Z) in
  {| resolved := if released then <[src := None]> (resolved st) else resolved st;
     pending := <[src := c]> (pending st);
     trace := trace st
              ++ (if b is None
                  then if awaits_external ops (owner sink) then []
                       else [EvMissingBuffer sink]
                  else [])
              ++ [EvConsume src sink released] |}.

(** Modelled from the spec: step 2 of [resolve], over the input pads of
    node [n] in order; [rec] resolves a source. *)
Fixpoint resolve_inputs (rec : Pad → Pass → Pass * Res (option Buffer))
    (n : Node) (names : list string) (st : Pass)
    : Pass * Res (list (string * option Buffer)) :=
  match names with
  | [] => (st, Ok [])
  | name :: rest =>
      match edges g !! (n, name) with
      | None => resolve_inputs rec n rest st
      | Some src =>
          match rec src st with
          | (st1, Ok b) =>
              match resolve_inputs rec n rest (consume src (n, name) b st1) with
              | (st2, Ok slots) => (st2, Ok ((name, b) :: slots))
              | (st2, OperationComputeError q) => (st2, OperationComputeError q)
              | (st2, OutOfFuel) => (st2, OutOfFuel)
              end
          | (st1, OperationComputeError q) => (st1, OperationComputeError q)
          | (st1, OutOfFuel) => (st1, OutOfFuel)
          end
      end
  end.

(** Modelled from the spec: steps 3 and 4 of [resolve]: invoke [compute]
    for [p], store its buffer and mark the pad resolved; a failing [compute]
    aborts the pass. *)
Definition run_compute (p : Pad) (slots : list (string * option Buffer))
    (st : Pass) : Pass * Res (option Buffer) :=
  let st' := {| resolved := resolved st; pending := pending st;
                trace := trace st ++ [EvCompute p] |} in
  match compute ops (owner p) p.2 slots with
  | Some buf =>
      ({| resolved := <[p := Some buf]> (resolved st'); pending := pending st';
          trace := trace st' |}, Ok (Some buf))
  | None => (st', OperationComputeError p)
  end.

(** Modelled from the spec: [resolve(output_pad)] of the evaluation visitor
    (the evaluation code is not part of the sources at hand).  A pad already
    resolved in this pass returns its cached buffer; otherwise the connected
    inputs of the owning node are resolved first, then [compute] runs. *)
Fixpoint resolve (fuel : nat) (p : Pad) (st : Pass) : Pass * Res (option Buffer) :=
  match fuel with
  | 0 => (st, OutOfFuel)
  | S f =>
      match resolved st !! p with
      | Some b => (st, Ok b)
      | None =>
          match resolve_inputs (resolve f) (owner p) (input_pads ops (owner p)) st with
          | (st1, Ok slots) => run_compute p slots st1
          | (st1, OperationComputeError q) => (st1, OperationComputeError q)
          | (st1, OutOfFuel) => (st1, OutOfFuel)
          end
      end
  end.

(** Modelled from the spec: one evaluation pass, a request for the output
    pad [p]. *)
Definition evaluate (fuel : nat) (p : Pad) : Pass * Res (option Buffer) :=
  resolve fuel p (new_pass g).

End visitor.

(** Readings of the log. *)
Definition computed (tr : list Event) : list Pad :=
  omap (λ e, if e is EvCompute p then Some p else None) tr.

Definition consumes (o : Pad) (e : Event) : bool :=
  if e is EvConsume src _ _ then bool_decide (src = o) else false.

Definition frees (o : Pad) (e : Event) : bool :=
  if e is EvConsume src _ r then bool_decide (src = o) && r else false.

Definition consumptions (o : Pad) (tr : list Event) : nat :=
  length (filter (λ e, consumes o e) tr).

Definition releases (o : Pad) (tr : list Event) : nat :=
  length (filter (λ e, frees o e) tr).






(** A node with three consumers: node 1 feeds nodes 2, 3 and 4, which feed
    the three inputs of node 5. *)
Definition fan : Graph.t :=
  connect_all
    [((1, "output"), (2, "input")); ((1, "output"), (3, "input"));
     ((1, "output"), (4, "input")); ((2, "output"), (5, "a"));
     ((3, "output"), (5, "b")); ((4, "output"), (5, "c"))]%string
    Graph.empty.

Definition fan_ops : @Ops nat :=
  {| input_pads n :=
       match n with
       | 5 => ["a"; "b"; "c"]%string
       | 2 | 3 | 4 => ["input"%string]
       | _ => []
       end;
     compute n _ slots := Some (n + sum_list (omap snd slots));
     awaits_external _ := false |}.

(** A node with two output pads: node 1 feeds nodes 2 and 3; node 2 has
    the output pads "a" and "b", which together with the output of node 3
    feed the three inputs of node 4. *)
Definition twin : Graph.t :=
  connect_all
    [((1, "output"), (2, "input")); ((1, "output"), (3, "input"));
     ((2, "a"), (4, "x")); ((2, "b"), (4, "y")); ((3, "output"), (4, "z"))]%string
    Graph.empty.

Definition twin_ops : @Ops nat :=
  {| input_pads n :=
       match n with
       | 4 => ["x"; "y"; "z"]%string
       | 2 | 3 => ["input"%string]
       | _ => []
       end;
     compute n _ slots := Some (n + sum_list (omap snd slots));
     awaits_external _ := false |}.

End Visitor.

(** ** The layer meta-operation ([operations/meta/layer.c]) *)

Module Layer.

Import Graph.

(** How a call into the operation can end: normally, on the failed
    [g_assert] of [associate], or on the dereference of a NULL pointer. *)
Inductive Outcome (A : Type) :=
  | Done (a : A)
  | AssertionFailed
  | NullDereference.
Arguments Done {A} a.
Arguments AssertionFailed {A}.
Arguments NullDereference {A}.

#[global] Instance Outcome_bind : MBind Outcome := λ A B k m,
  match m with
  | Done a => k a
  | AssertionFailed => AssertionFailed
  | NullDereference => NullDereference
  end.

Section layer.

(** [gdouble] values are only stored, never computed with; a [GeglBuffer]
    is a handle to a buffer object. *)
Context {gdouble GeglBuffer : Type}.

(** Values of node properties. *)
Inductive GValue :=
  | VString (s : string)
  | VDouble (d : gdouble)
  | VBuffer (b : option GeglBuffer).

(** Modelled from the spec: a node with an internal connection graph (the
    graph library is not part of the sources at hand): the wiring of its
    children, their properties, the number of children created so far, and
    the mapping of the node's external input and output pads to proxy
    children. *)
Record GeglGraph := {
  wiring : Graph.t;
  props : gmap (Node * string) GValue;
  children : nat;
  inputs : gmap string Node;
  outputs : gmap string Node
}.

Definition empty_graph : GeglGraph :=
  {| wiring := Graph.empty; props := ∅; children := 0; inputs := ∅; outputs := ∅ |}.

(** Modelled from the spec: [gegl_graph_create_node] of the graph library,
    which is not part of the sources at hand; it adds a child running the
    named operation. *)
Definition gegl_graph_create_node (operation : string) (g : GeglGraph)
    : GeglGraph * Node :=
  let n := children g in
  ({| wiring := wiring g;
      props := <[(n, "operation"%string) := VString operation]> (props g);
      children := S n; inputs := inputs g; outputs := outputs g |}, n).

(** Modelled from the spec: [gegl_graph_input] of the graph library, not
    part of the sources at hand; it gives the proxy child that the external
    input pad [name] of the node is mapped to, creating it on first use. *)
Definition gegl_graph_input (name : string) (g : GeglGraph) : GeglGraph * Node :=
  match inputs g !! name with
  | Some n => (g, n)
  | None =>
      let n := children g in
      ({| wiring := wiring g; props := props g; children := S n;
          inputs := <[name := n]> (inputs g); outputs := outputs g |}, n)
  end.

(** Modelled from the spec: [gegl_graph_output] of the graph library, not
    part of the sources at hand; the same for an external output pad. *)
Definition gegl_graph_output (name : string) (g : GeglGraph) : GeglGraph * Node :=
  match outputs g !! name with
  | Some n => (g, n)
  | None =>
      let n := children g in
      ({| wiring := wiring g; props := props g; children := S n;
          inputs := inputs g; outputs := <[name := n]> (outputs g) |}, n)
  end.

(** Modelled from the spec: [gegl_node_set] of the graph library, not part
    of the sources at hand; it stores a property of a node. *)
Definition gegl_node_set (n : Node) (prop : string) (v : GValue) (g : GeglGraph)
    : GeglGraph :=
  {| wiring := wiring g; props := <[(n, prop) := v]> (props g);
     children := children g; inputs := inputs g; outputs := outputs g |}.

(** Modelled from the spec: [gegl_node_connect (sink, sink_pad, source,
    source_pad)] of the graph library, not part of the sources at hand: the
    [connect] of the connection graph from the source's output pad to the
    sink's input pad.  Its callers below do not look at its result. *)
Definition gegl_node_connect (sink : Node) (sink_pad : string)
    (source : Node) (source_pad : string) (g : GeglGraph) : GeglGraph :=
  {| wiring := (connect (source, source_pad) (sink, sink_pad) (wiring g)).1;
     props := props g; children := children g;
     inputs := inputs g; outputs := outputs g |}.

(** [struct _Priv] *)
Record Priv := {
  self : Node;
  input : Node;
  aux : Node;
  output : Node;
  composite_op : Node;
  shift : Node;
  opacity : Node;
  load : Node;
  cached_path : option string;
  cached_buffer : option GeglBuffer
}.

(** The chant properties of the operation (its external configuration);
    [src] is a [gchar *] and may be NULL. *)
Record Config := {
  cfg_composite_op : string;
  cfg_opacity : gdouble;
  cfg_x : gdouble;
  cfg_y : gdouble;
  cfg_src : option string
}.

(** What the operation does to objects it does not own the code of. *)
Inductive Event :=
  | EvLoad (path : option string)
  | EvUnrefBuffer (b : GeglBuffer)
  | EvFreePath (s : string)
  | EvUnrefGraph
  | EvFreePriv
  | EvParentDispose
  | EvParentFinalize.

(** The operation instance: [GEGL_OPERATION (self)->node], the chant
    properties, [self->priv], the node as a graph, and the log. *)
Record State := {
  node : Node;
  config : Config;
  priv : option Priv;
  graph : GeglGraph;
  log : list Event
}.

Definition loads (l : list Event) : list (option string) :=
  omap (λ e, if e is EvLoad path then Some path else None) l.

(** The buffer that applying a fresh "load" node yields for a path, given
    the number of loads done before.  The code unrefs this buffer right away
    without a NULL test (line 200): it is a valid object. *)
Variable load_output : nat → option string → GeglBuffer.

Definition set_priv (p : Priv) (st : State) : State :=
  {| node := node st; config := config st; priv := Some p;
     graph := graph st; log := log st |}.

Definition set_graph (g : GeglGraph) (st : State) : State :=
  {| node := node st; config := config st; priv := priv st;
     graph := g; log := log st |}.

Definition emit (es : list Event) (st : State) : State :=
  {| node := node st; config := config st; priv := priv st;
     graph := graph st; log := log st ++ es |}.

Definition set_cache (path : option string) (buf : option GeglBuffer) (p : Priv) : Priv :=
  {| self := self p; input := input p; aux := aux p; output := output p;
     composite_op := composite_op p; shift := shift p; opacity := opacity p;
     load := load p; cached_path := path; cached_buffer := buf |}.

(** The test of [refresh_cache]:
    [!priv->cached_buffer ||
     ((priv->cached_path && self->src) && strcmp (self->src, priv->cached_path))] *)
Definition stale (p : Priv) (src : option string) : bool :=
  match cached_buffer p with
  | None => true
  | Some _ =>
      match cached_path p, src with
      | Some cp, Some s => negb (bool_decide (s = cp))
      | _, _ => false
      end
  end.

Definition refresh_cache (st : State) : Outcome State :=
  match priv st with
  | None => NullDereference
  | Some p =>
      let src := cfg_src (config st) in
      if stale p src then
        (* if (priv->cached_buffer) { unref; cached_buffer = NULL; g_free (path) } *)
        let dropped :=
          match cached_buffer p with
          | Some old =>
              EvUnrefBuffer old
              :: (if cached_path p is Some cp then [EvFreePath cp] else [])
          | None => []
          end in
        (* a fresh graph with a "load" node on the path is applied *)
        let b := load_output (length (loads (log st))) src in
        Done (emit (dropped ++ [EvLoad src; EvUnrefBuffer b; EvUnrefGraph])
                   (set_priv (set_cache src (Some b) p) st))
      else Done st
  end.

Definition prepare (st : State) : Outcome State :=
  match priv st with
  | None => NullDereference
  | Some p =>
      let cfg := config st in
      let st := set_graph (gegl_node_set (composite_op p) "operation"
                             (VString (cfg_composite_op cfg)) (graph st)) st in
      match cfg_src cfg with
      | None => NullDereference
      | Some s =>
          st ← (if bool_decide (s ≠ ""%string) then
                  st ← refresh_cache st;
                  match priv st with
                  | None => NullDereference
                  | Some p =>
                      Done (set_graph (gegl_node_set (load p) "buffer"
                                         (VBuffer (cached_buffer p)) (graph st)) st)
                  end
                else
                  Done (set_graph (gegl_node_connect (opacity p) "input"
                                     (aux p) "output" (graph st)) st));
          let st := set_graph (gegl_node_set (opacity p) "value"
                                 (VDouble (cfg_opacity cfg)) (graph st)) st in
          let st := set_graph (gegl_node_set (shift p) "y" (VDouble (cfg_y cfg))
                                 (gegl_node_set (shift p) "x" (VDouble (cfg_x cfg))
                                    (graph st))) st in
          Done st
      end
  end.

Definition associate (st : State) : Outcome State :=
  match priv st with
  | Some _ => AssertionFailed
  | None =>
      let g := graph st in
      let '(g, input) := gegl_graph_input "input" g in
      let '(g, aux) := gegl_graph_input "aux" g in
      let '(g, output) := gegl_graph_output "output" g in
      let '(g, composite_op) :=
        gegl_graph_create_node (cfg_composite_op (config st)) g in
      let '(g, shift) := gegl_graph_create_node "shift" g in
      let '(g, opacity) := gegl_graph_create_node "opacity" g in
      let '(g, load) := gegl_graph_create_node "buffer" g in
      let g := gegl_node_connect opacity "input" load "output" g in
      let g := gegl_node_connect shift "input" opacity "output" g in
      let g := gegl_node_connect composite_op "aux" shift "output" g in
      let g := gegl_node_connect composite_op "input" input "output" g in
      let g := gegl_node_connect output "input" composite_op "output" g in
      Done (set_graph g
              (set_priv {| self := node st; input := input; aux := aux;
                           output := output; composite_op := composite_op;
                           shift := shift; opacity := opacity; load := load;
                           cached_path := None; cached_buffer := None |} st))
  end.

Definition dispose (st : State) : Outcome State :=
  match priv st with
  | None => NullDereference
  | Some p =>
      let ev_buffer := if cached_buffer p is Some b then [EvUnrefBuffer b] else [] in
      let ev_path := if cached_path p is Some s then [EvFreePath s] else [] in
      Done (emit (ev_buffer ++ ev_path ++ [EvParentDispose])
                 (set_priv (set_cache None None p) st))
  end.

Definition finalize (st : State) : State :=
  emit ((if priv st is Some _ then [EvFreePriv] else []) ++ [EvParentFinalize]) st.

(** A newly created instance: no private data, an empty graph. *)
Definition fresh (n : Node) (cfg : Config) : State :=
  {| node := n; config := cfg; priv := None; graph := empty_graph; log := [] |}.

Definition set_config (cfg : Config) (st : State) : State :=
  {| node := node st; config := cfg; priv := priv st;
     graph := graph st; log := log st |}.

(** Modelled from the spec: the framework invokes [associate] lazily, the
    first time the internal structure of the node is needed, and once only
    (the calling code is not part of the sources at hand).  [associated] is
    the framework's own record of having done so. *)
Record Instance := {
  state : State;
  associated : bool;
  associate_calls : nat
}.

(** Modelled from the spec: a node instance as the framework creates it. *)
Definition created (n : Node) (cfg : Config) : Instance :=
  {| state := fresh n cfg; associated := false; associate_calls := 0 |}.

(** Modelled from the spec: the lazy, once-only invocation of [associate]
    by the framework, whose code is not part of the sources at hand. *)
Definition need_structure (inst : Instance) : Outcome Instance :=
  if associated inst then Done inst
  else
    st ← associate (state inst);
    Done {| state := st; associated := true;
            associate_calls := S (associate_calls inst) |}.

(** Modelled from the spec: a [prepare] request under the configuration
    [cfg], as the framework (not part of the sources at hand) issues it. *)
Definition serve (inst : Instance) (cfg : Config) : Outcome Instance :=
  inst ← need_structure inst;
  st ← prepare (set_config cfg (state inst));
  Done {| state := st; associated := associated inst;
          associate_calls := associate_calls inst |}.

(** Modelled from the spec: a sequence of [prepare] requests. *)
Definition run (cfgs : list Config) (inst : Instance) : Outcome Instance :=
  foldl (λ acc cfg, inst ← acc; serve inst cfg) (Done inst) cfgs.

(** An external pad of the node is wired when its proxy is connected to a
    child: an input proxy feeds some input pad, an output proxy is fed. *)
Definition wired_in (g : GeglGraph) (name : string) : Prop :=
  ∃ n sink, inputs g !! name = Some n ∧
            edges (wiring g) !! sink = Some (n, "output"%string).

Definition wired_out (g : GeglGraph) (name : string) : Prop :=
  ∃ n source, outputs g !! name = Some n ∧
              edges (wiring g) !! (n, "input"%string) = Some source.

(** The cached buffer always comes with the path it was loaded from. *)
Definition cache_coherent (p : Priv) : Prop :=
  is_Some (cached_buffer p) → is_Some (cached_path p).

Definition set_src (s : string) (st : State) : State :=
  set_config {| cfg_composite_op := cfg_composite_op (config st);
                cfg_opacity := cfg_opacity (config st);
                cfg_x := cfg_x (config st); cfg_y := cfg_y (config st);
                cfg_src := Some s |} st.

(** The state [associate] leaves behind on a newly created instance. *)
Definition associated_priv (n : Node) : Priv :=
  {| self := n; input := 0; aux := 1; output := 2; composite_op := 3;
     shift := 4; opacity := 5; load := 6;
     cached_path := None; cached_buffer := None |}.

Definition associated_edges : gmap Pad Pad :=
  list_to_map
    [((5, "input"), (6, "output")); ((4, "input"), (5, "output"));
     ((3, "aux"), (4, "output")); ((3, "input"), (0, "output"));
     ((2, "input"), (3, "output"))]%string.

Definition associated_graph (operation : string) : GeglGraph :=
  {| wiring :=
       {| edges := associated_edges;
          consumer_count :=
            list_to_map
              [((6, "output"), 1%Z); ((5, "output"), 1%Z); ((4, "output"), 1%Z);
               ((0, "output"), 1%Z); ((3, "output"), 1%Z)]%string |};
     props :=
       list_to_map
         [((3, "operation"), VString operation);
          ((4, "operation"), VString "shift");
          ((5, "operation"), VString "opacity");
          ((6, "operation"), VString "buffer")]%string;
     children := 7;
     inputs := list_to_map [("input", 0); ("aux", 1)]%string;
     outputs := list_to_map [("output", 2)]%string |}.

(** What the framework's record and the instance agree on. *)
Definition in_step (inst : Instance) : Prop :=
  (associated inst = true ↔ is_Some (priv (state inst))) ∧
  associate_calls inst = (if associated inst then 1 else 0).

(** The property settings of [prepare], around the step [mid] that depends
    on the source path. *)
Definition configure (p : Priv) (cfg : Config) (mid : GeglGraph → GeglGraph)
    (g : GeglGraph) : GeglGraph :=
  gegl_node_set (shift p) "y" (VDouble (cfg_y cfg))
    (gegl_node_set (shift p) "x" (VDouble (cfg_x cfg))
       (gegl_node_set (opacity p) "value" (VDouble (cfg_opacity cfg))
          (mid (gegl_node_set (composite_op p) "operation"
                  (VString (cfg_composite_op cfg)) g)))).

(** The private data and the log after [refresh_cache] on the path [s]. *)
Definition refreshed (p : Priv) (s : string) (l : list Event) : Priv * list Event :=
  if stale p (Some s) then
    let b := load_output (length (loads l)) (Some s) in
    (set_cache (Some s) (Some b) p,
     l ++ match cached_buffer p with
          | Some old =>
              EvUnrefBuffer old
              :: (if cached_path p is Some cp then [EvFreePath cp] else [])
          | None => []
          end
       ++ [EvLoad (Some s); EvUnrefBuffer b; EvUnrefGraph])
  else (p, l).

End layer.

(** Counting the releases in a log. *)
Definition unrefs {B} (l : list (@Event B)) : nat :=
  length (omap (λ e, if e is EvUnrefBuffer b then Some b else None) l).

Definition frees {B} (l : list (@Event B)) : nat :=
  length (omap (λ e, if e is EvFreePath s then Some s else None) l).

(** The buffers unreffed and the paths freed, in the order of the log. *)
Definition unreffed {B} (l : list (@Event B)) : list B :=
  omap (λ e, if e is EvUnrefBuffer b then Some b else None) l.

Definition freed {B} (l : list (@Event B)) : list string :=
  omap (λ e, if e is EvFreePath s then Some s else None) l.

(** Buffers are numbered by the load that produced them. *)
Definition nth_load (n : nat) (path : option string) : nat := n.

Definition demo_config (path : string) : @Config Z :=
  {| cfg_composite_op := "over"; cfg_opacity := 1%Z; cfg_x := 0%Z; cfg_y := 0%Z;
     cfg_src := Some path |}.

(** An associated instance holding buffer 7, loaded from "a.png". *)
Definition demo_priv : @Priv nat :=
  {| self := 0; input := 0; aux := 1; output := 2; composite_op := 3;
     shift := 4; opacity := 5; load := 6;
     cached_path := Some "a.png"%string; cached_buffer := Some 7 |}.

Definition demo_state (path : string) : @State Z nat :=
  {| node := 0; config := demo_config path; priv := Some demo_priv;
     graph := associated_graph "over"; log := [] |}.

(** The demo instance with an empty source path, after [prepare]. *)
Definition demo_prepared : @State Z nat :=
  {| node := 0; config := demo_config ""; priv := Some demo_priv;
     graph := configure demo_priv (demo_config "")
                (gegl_node_connect 5 "input" 1 "output") (associated_graph "over");
     log := [] |}.

(** *** Sequences of calls on an associated instance *)

Section layer_calls.

Context {gdouble GeglBuffer : Type}.
Variable load_output : nat → option string → GeglBuffer.

(** The two entry points a caller drives once [associate] has run:
    [prepare], under the chant properties of the moment, and [dispose]. *)
Inductive Call :=
  | CallPrepare (cfg : @Config gdouble)
  | CallDispose.

Definition call (c : Call) (st : @State gdouble GeglBuffer)
    : Outcome (@State gdouble GeglBuffer) :=
  match c with
  | CallPrepare cfg => prepare load_output (set_config cfg st)
  | CallDispose => dispose st
  end.

Definition calls (cs : list Call) (st : @State gdouble GeglBuffer)
    : Outcome (@State gdouble GeglBuffer) :=
  foldl (λ acc c, st ← acc; call c st) (Done st) cs.

(** The [src] property is not NULL. *)
Definition has_src (c : Call) : Prop :=
  match c with
  | CallPrepare cfg => is_Some (cfg_src cfg)
  | CallDispose => True
  end.

(** What the private data and the log have in common at every moment: a
    buffer is cached exactly when a path is; every loaded buffer has been
    unreffed twice, but for the cached one, which has been unreffed once;
    every path recorded has been freed, but for the cached one; and the
    cached buffer is the result of the last load, which was of the cached
    path. *)
Definition tally (p : @Priv GeglBuffer) (l : list (@Event GeglBuffer)) : Prop :=
  (is_Some (cached_buffer p) ↔ is_Some (cached_path p)) ∧
  unrefs l + (if cached_buffer p is Some _ then 1 else 0) = 2 * length (loads l) ∧
  frees l + (if cached_path p is Some _ then 1 else 0) = length (loads l) ∧
  (∀ b, cached_buffer p = Some b →
        ∃ l0, loads l = l0 ++ [cached_path p] ∧
              b = load_output (length l0) (cached_path p)).

(** The property keys [prepare] writes. *)
(** The buffers that the loads of a log delivered, in order. *)
Definition delivered (l : list (@Event GeglBuffer)) : list GeglBuffer :=
  imap load_output (loads l).

(** Buffer by buffer and path by path: with the buffer still cached counted
    as one unref to come, the buffers unreffed are the buffers delivered,
    each twice; and with the path still cached counted as one free to come,
    the paths freed are the paths loaded. *)
Definition ledger (p : @Priv GeglBuffer) (l : list (@Event GeglBuffer)) : Prop :=
  unreffed l ++ option_list (cached_buffer p) ≡ₚ delivered l ++ delivered l ∧
  (Some <$> freed l) ++ (if cached_path p is Some s then [Some s] else [])
    ≡ₚ loads l.

Definition prepared_keys (p : @Priv GeglBuffer) : list (Node * string) :=
  [(composite_op p, "operation"); (load p, "buffer"); (opacity p, "value");
   (shift p, "x"); (shift p, "y")]%string.

End layer_calls.

(** Some calls on the demo instance: two paths, a dispose, a path again. *)
Definition demo_calls : list (@Call Z) :=
  [CallPrepare (demo_config "a.png"); CallPrepare (demo_config "b.png");
   CallPrepare (demo_config ""); CallDispose; CallPrepare (demo_config "b.png")].

End Layer.

(** ** The generated compositors ([svg-12-porter-duff.rb], [other-blend.rb]) *)

Module Compositor.

(** How a [process] call can end: with its return value, on an access
    outside the mapped memory (NULL included), or out of fuel. *)
Inductive Result (A : Type) :=
  | Ret (a : A)
  | Fault
  | OutOfFuel.
Arguments Ret {A} a.
Arguments Fault {A}.
Arguments OutOfFuel {A}.

#[global] Instance Result_bind : MBind Result := λ A B k m,
  match m with
  | Ret a => k a
  | Fault => Fault
  | OutOfFuel => OutOfFuel
  end.

(** The arithmetic the emitted code relies on, kept abstract: [gfloat]
    with the literals of the formulas, and the [g4float] vector macros. *)
Class FloatOps (gfloat g4float : Type) := {
  f_lit : Z → gfloat;
  f_add : gfloat → gfloat → gfloat;
  f_sub : gfloat → gfloat → gfloat;
  f_mul : gfloat → gfloat → gfloat;
  g4float_zero : g4float;
  g4float_one : g4float;
  g4_add : g4float → g4float → g4float;
  g4_sub : g4float → g4float → g4float;
  g4_mul : g4float → g4float → g4float;
  g4float_mul : g4float → gfloat → g4float;
  g4float_all : gfloat → g4float;
  g4floatA : g4float → gfloat;
  g4float_a3 : g4float → gfloat;
  g4float_setA : g4float → gfloat → g4float
}.

(** The operations of the two tables [a]. *)
Inductive Op :=
  | clear | src | dst | src_over | dst_over | src_in | dst_in
  | src_out | dst_out | src_atop | dst_atop | xor
  | normal | over.

(** Memory of one element type, addressed by element index, with the log
    of the output positions at which a pixel was produced.  A pointer is
    NULL ([None]) or an address. *)
Record Store (V : Type) := {
  mem : gmap nat V;
  applied : list nat
}.
Arguments mem {V} _.
Arguments applied {V} _.

Definition advance (k : nat) (ptr : option nat) : option nat :=
  (λ a, a + k) <$> ptr.

Definition read {V} (ptr : option nat) (k : nat) (st : Store V) : Result V :=
  match ptr with
  | None => Fault
  | Some a => if mem st !! (a + k) is Some v then Ret v else Fault
  end.

Definition write {V} (ptr : option nat) (k : nat) (v : V) (st : Store V)
    : Result (Store V) :=
  match ptr with
  | None => Fault
  | Some a =>
      if mem st !! (a + k) is Some _
      then Ret {| mem := <[a + k := v]> (mem st); applied := applied st |}
      else Fault
  end.

Definition mark {V} (ptr : option nat) (st : Store V) : Store V :=
  {| mem := mem st;
     applied := applied st ++ (if ptr is Some a then [a] else []) |}.

Definition INT_MAX : Z := 2147483647.

(** [glong] arithmetic: 64 bits, two's complement. *)
Definition glong_wrap (z : Z) : Z :=
  ((z + 2 ^ 63) mod 2 ^ 64 - 2 ^ 63)%Z.

Section compositor.

Context {gfloat g4float : Type} `{!FloatOps gfloat g4float}.

(** [c_formula]: the colour formula of each operation. *)
Definition c_formula (op : Op) (cA cB aA aB : gfloat) : gfloat :=
  match op with
  | clear => f_lit 0
  | src => cA
  | dst => cB
  | src_over | normal | over => f_add cA (f_mul cB (f_sub (f_lit 1) aA))
  | dst_over => f_add cB (f_mul cA (f_sub (f_lit 1) aB))
  | src_in => f_mul cA aB
  | dst_in => f_mul cB aA
  | src_out => f_mul cA (f_sub (f_lit 1) aB)
  | dst_out => f_mul cB (f_sub (f_lit 1) aA)
  | src_atop => f_add (f_mul cA aB) (f_mul cB (f_sub (f_lit 1) aA))
  | dst_atop => f_add (f_mul cB aA) (f_mul cA (f_sub (f_lit 1) aB))
  | xor => f_add (f_mul cA (f_sub (f_lit 1) aB)) (f_mul cB (f_sub (f_lit 1) aA))
  end.

(** [a_formula]: the alpha formula of each operation. *)
Definition a_formula (op : Op) (aA aB : gfloat) : gfloat :=
  match op with
  | clear => f_lit 0
  | src => aA
  | dst => aB
  | src_over | dst_over | normal | over => f_sub (f_add aA aB) (f_mul aA aB)
  | src_in | dst_in => f_mul aA aB
  | src_out => f_mul aA (f_sub (f_lit 1) aB)
  | dst_out => f_mul aB (f_sub (f_lit 1) aA)
  | src_atop => aB
  | dst_atop => aA
  | xor => f_sub (f_add aA aB) (f_mul (f_mul (f_lit 2) aA) aB)
  end.

(** Which of the loaded values the two formulas of an operation mention:
    [cB] and [aB] are loaded from [in], [cA] and [aA] from [aux]. *)
Definition mentions_cB (op : Op) : bool :=
  match op with clear | src | src_in | src_out => false | _ => true end.

Definition mentions_aB (op : Op) : bool :=
  match op with clear | src => false | _ => true end.

Definition mentions_cA (op : Op) : bool :=
  match op with clear | dst | dst_in | dst_out => false | _ => true end.

Definition mentions_aA (op : Op) : bool :=
  match op with clear | dst => false | _ => true end.

(** Whether the value loaded from component [j] of the input (resp. aux)
    pixel is used: components 0 to 2 are [cB] (resp. [cA]), component 3 is
    [aB] (resp. [aA]). *)
Definition uses_in (op : Op) (j : nat) : bool :=
  if decide (j = 3) then mentions_aB op else mentions_cB op.

Definition uses_aux (op : Op) (j : nat) : bool :=
  if decide (j = 3) then mentions_aA op else mentions_cA op.

(** The inner loop [for (j = 0; j < 3; j++)] from [j] on, [k] rounds left. *)
Fixpoint colours (op : Op) (k j : nat) (in_ aux out : option nat) (aA aB : gfloat)
    (st : Store gfloat) : Result (Store gfloat) :=
  match k with
  | 0 => Ret st
  | S k =>
      cB ← read in_ j st;
      cA ← read aux j st;
      st ← write out j (c_formula op cA cB aA aB) st;
      colours op k (S j) in_ aux out aA aB st
  end.

(** The body of the pixel loop of [process].  Every load that the source
    writes is an access here, whether or not a formula of the operation
    mentions the value loaded.  Where it does not ([uses_in], [uses_aux]),
    the behaviour of the C program on an address that is not mapped is
    undefined and a compiler may leave the load out: what is proved about
    faults speaks of the stores and of the loads whose value is used. *)
Definition pixel (op : Op) (in_ aux out : option nat) (st : Store gfloat)
    : Result (Store gfloat) :=
  aB ← read in_ 3 st;
  aA ← read aux 3 st;
  let aD := a_formula op aA aB in
  st ← colours op 3 0 in_ aux out aA aB st;
  st ← write out 3 aD st;
  Ret (mark out st).

(** [for (i = 0; i < n_pixels; i++)] with [gint i]: incrementing [i] past
    [INT_MAX] is an overflow. *)
Fixpoint pixels (op : Op) (fuel : nat) (i n_pixels : Z) (in_ aux out : option nat)
    (st : Store gfloat) : Result (Store gfloat) :=
  if (i <? n_pixels)%Z then
    match fuel with
    | 0 => OutOfFuel
    | S fuel =>
        st ← pixel op in_ aux out st;
        if (i <? INT_MAX)%Z
        then pixels op fuel (i + 1) n_pixels
                    (advance 4 in_) (advance 4 aux) (advance 4 out) st
        else Fault
    end
  else Ret st.

(** [process]: the scalar variant. *)
Definition process (op : Op) (in_buf aux_buf out_buf : option nat) (n_pixels : Z)
    (st : Store gfloat) : Result (bool * Store gfloat) :=
  match aux_buf with
  | None => Ret (true, st)
  | Some _ =>
      st ← pixels op (Z.to_nat n_pixels) 0 n_pixels in_buf aux_buf out_buf st;
      Ret (true, st)
  end.

(** [sse_formula]: the statement(s) of each operation on [*A], [*B], [*D]. *)
Definition sse_formula (op : Op) (A B D : option nat) (st : Store g4float)
    : Result (Store g4float) :=
  match op with
  | clear => write D 0 g4float_zero st
  | src => a ← read A 0 st; write D 0 a st
  | dst => b ← read B 0 st; write D 0 b st
  | src_over =>
      a ← read A 0 st; b ← read B 0 st;
      write D 0 (g4_add a (g4float_mul b (f_sub (f_lit 1) (g4floatA a)))) st
  | dst_over =>
      a ← read A 0 st; b ← read B 0 st;
      write D 0 (g4_add b (g4float_mul a (f_sub (f_lit 1) (g4floatA b)))) st
  | src_in =>
      a ← read A 0 st; b ← read B 0 st;
      write D 0 (g4float_mul a (g4floatA b)) st
  | dst_in =>
      a ← read A 0 st; b ← read B 0 st;
      write D 0 (g4float_mul b (g4floatA a)) st
  | src_out =>
      a ← read A 0 st; b ← read B 0 st;
      write D 0 (g4float_mul a (f_sub (f_lit 1) (g4floatA b))) st
  | dst_out =>
      a ← read A 0 st; b ← read B 0 st;
      write D 0 (g4float_mul b (f_sub (f_lit 1) (g4floatA a))) st
  | src_atop =>
      a ← read A 0 st; b ← read B 0 st;
      st ← write D 0 (g4_add (g4float_mul a (g4floatA b))
                         (g4float_mul b (f_sub (f_lit 1) (g4floatA a)))) st;
      d ← read D 0 st; b ← read B 0 st;
      write D 0 (g4float_setA d (g4floatA b)) st
  | dst_atop =>
      a ← read A 0 st; b ← read B 0 st;
      st ← write D 0 (g4_add (g4float_mul b (g4floatA a))
                         (g4float_mul a (f_sub (f_lit 1) (g4floatA b)))) st;
      d ← read D 0 st; a ← read A 0 st;
      write D 0 (g4float_setA d (g4floatA a)) st
  | xor => a ← read A 0 st; b ← read B 0 st; write D 0 (g4_mul a b) st
  | normal | over =>
      a ← read A 0 st; b ← read B 0 st;
      write D 0 (g4_add a (g4_mul b (g4_sub g4float_one
                                        (g4float_all (g4float_a3 a))))) st
  end.

(** The vector that the statement(s) of [sse_formula] leave in [*D] when
    [*A] and [*B] held [a] and [b] before.  The two [atop] formulas are two
    statements, the second reading [*B] (resp. [*A]) again after the store
    into [*D]: their result depends on whether [D] is [B] (resp. [A]). *)
Definition sse_value (op : Op) (d_is_a d_is_b : bool) (a b : g4float) : g4float :=
  match op with
  | clear => g4float_zero
  | src => a
  | dst => b
  | src_over => g4_add a (g4float_mul b (f_sub (f_lit 1) (g4floatA a)))
  | dst_over => g4_add b (g4float_mul a (f_sub (f_lit 1) (g4floatA b)))
  | src_in => g4float_mul a (g4floatA b)
  | dst_in => g4float_mul b (g4floatA a)
  | src_out => g4float_mul a (f_sub (f_lit 1) (g4floatA b))
  | dst_out => g4float_mul b (f_sub (f_lit 1) (g4floatA a))
  | src_atop =>
      let d := g4_add (g4float_mul a (g4floatA b))
                      (g4float_mul b (f_sub (f_lit 1) (g4floatA a))) in
      g4float_setA d (g4floatA (if d_is_b then d else b))
  | dst_atop =>
      let d := g4_add (g4float_mul b (g4floatA a))
                      (g4float_mul a (f_sub (f_lit 1) (g4floatA b))) in
      g4float_setA d (g4floatA (if d_is_a then d else a))
  | xor => g4_mul a b
  | normal | over =>
      g4_add a (g4_mul b (g4_sub g4float_one (g4float_all (g4float_a3 a))))
  end.

(** [while (--n_pixels) { formula; A++; B++; D++; }] *)
Fixpoint simd_loop (op : Op) (fuel : nat) (n_pixels : Z) (A B D : option nat)
    (st : Store g4float) : Result (Store g4float) :=
  let n_pixels := glong_wrap (n_pixels - 1) in
  if (n_pixels =? 0)%Z then Ret st
  else
    match fuel with
    | 0 => OutOfFuel
    | S fuel =>
        st ← sse_formula op A B D st;
        simd_loop op fuel n_pixels (advance 1 A) (advance 1 B) (advance 1 D)
                  (mark D st)
    end.

(** [process_gegl4float]: the SIMD variant. *)
Definition process_gegl4float (op : Op) (in_buf aux_buf out_buf : option nat)
    (n_pixels : Z) (st : Store g4float) : Result (bool * Store g4float) :=
  let A := aux_buf in
  let B := in_buf in
  let D := out_buf in
  if bool_decide (B = None) || (n_pixels =? 0)%Z then Ret (true, st)
  else
    st ← simd_loop op (Z.to_nat ((n_pixels - 1) mod 2 ^ 64)) n_pixels A B D st;
    Ret (true, st).

End compositor.

(** Integer arithmetic in place of the floats, four components to a
    vector, alpha last. *)
Definition v4 : Type := Z * Z * Z * Z.

Definition v4_map2 (f : Z → Z → Z) (x y : v4) : v4 :=
  let '(x0, x1, x2, x3) := x in
  let '(y0, y1, y2, y3) := y in
  (f x0 y0, f x1 y1, f x2 y2, f x3 y3).

#[export] Instance Z_ops : FloatOps Z v4 := {|
  f_lit z := z;
  f_add := Z.add; f_sub := Z.sub; f_mul := Z.mul;
  g4float_zero := (0, 0, 0, 0)%Z;
  g4float_one := (1, 1, 1, 1)%Z;
  g4_add := v4_map2 Z.add; g4_sub := v4_map2 Z.sub; g4_mul := v4_map2 Z.mul;
  g4float_mul x k := v4_map2 Z.mul x (k, k, k, k);
  g4float_all k := (k, k, k, k);
  g4floatA x := x.2;
  g4float_a3 x := x.2;
  g4float_setA x k := (x.1, k)
|}.

(** Three pixels each: aux at 0..2, in at 10..12, out at 20..22. *)
Definition three_pixels : Store v4 :=
  {| mem := list_to_map
       [(0, (1, 1, 1, 1)%Z); (1, (2, 2, 2, 1)%Z); (2, (3, 3, 3, 1)%Z);
        (10, (5, 5, 5, 1)%Z); (11, (6, 6, 6, 1)%Z); (12, (7, 7, 7, 1)%Z);
        (20, (9, 9, 9, 9)%Z); (21, (9, 9, 9, 9)%Z); (22, (9, 9, 9, 9)%Z)];
     applied := [] |}.

(** Two scalar pixels: aux at 0..7, in at 8..15, out at 16..23. *)
Definition two_pixels : Store Z :=
  {| mem := list_to_map (zip (seq 0 24) (Z.of_nat <$> seq 100 24)); applied := [] |}.

End Compositor.

(** * Part II: the properties *)

(** ** Connection graph: facts *)

Module GraphFacts.

Import Graph.

(** *** The bounded search finds exactly the paths *)

Lemma flows_link g i o : (i, o) ∈ links g → flows g (owner o) (owner i).
Proof.
  intros H%elem_of_map_to_list. by exists i, o.
Qed.

Lemma reach_sound g fuel x y :
  reach (links g) fuel x y = true → rtc (flows g) x y.
Proof.
  revert x. induction fuel as [|f IH]; intros x; simpl.
  - rewrite orb_false_r. intros ->%bool_decide_eq_true. constructor.
  - intros [->%bool_decide_eq_true | H]%orb_prop; [constructor|].
    apply existsb_exists in H as ([i o] & Hin & [Ho%bool_decide_eq_true Hr]%andb_prop).
    simpl in *. apply list_elem_of_In in Hin.
    eapply rtc_l; [|by apply IH]. rewrite <- Ho. by apply flows_link.
Qed.

Lemma reach_walk g l x y fuel :
  walk g l x y → length l ≤ fuel → reach (links g) fuel x y = true.
Proof.
  intros Hw. revert fuel. induction Hw as [x | x y z l (i & o & Hio & <- & <-) Hw IH];
    intros fuel Hlen; simpl in *.
  - destruct fuel; simpl; by rewrite bool_decide_eq_true_2.
  - destruct fuel as [|f]; [lia|]. simpl.
    apply orb_true_iff; right. apply existsb_exists. exists (i, o); simpl.
    split; [by apply list_elem_of_In, elem_of_map_to_list|].
    rewrite bool_decide_eq_true_2 by done. simpl. apply IH. lia.
Qed.

Lemma rtc_walk g x y : rtc (flows g) x y → ∃ l, walk g l x y.
Proof.
  induction 1 as [x | x y z Hxy _ [l Hl]].
  - exists []. constructor.
  - exists (x :: l). by econstructor.
Qed.

Lemma walk_rtc g l x y : walk g l x y → rtc (flows g) x y.
Proof.
  induction 1; [constructor|]. by eapply rtc_l.
Qed.

Lemma walk_via g l x y n : walk g l x y → n ∈ l → rtc (flows g) x n.
Proof.
  induction 1 as [|x y z l Hxy Hw IH]; [by intros ?%elem_of_nil|].
  intros [-> | Hn]%elem_of_cons; [constructor|].
  eapply rtc_l; [done|]. by apply IH.
Qed.

Lemma walk_sources g l x y n :
  walk g l x y → n ∈ l → n ∈ (λ e : Pad * Pad, owner e.2) <$> links g.
Proof.
  induction 1 as [|x y z l (i & o & Hio & <- & <-) Hw IH]; [by intros ?%elem_of_nil|].
  intros [-> | Hn]%elem_of_cons; [|by apply IH].
  apply list_elem_of_fmap. exists (i, o). split; [done|].
  by apply elem_of_map_to_list.
Qed.

Lemma walk_NoDup g l x y : acyclic g → walk g l x y → NoDup l.
Proof.
  intros Hac. induction 1 as [|x y z l Hxy Hw IH]; [constructor|].
  constructor; [|done]. intros Hin.
  apply (Hac x). eapply tc_rtc_r; [by apply tc_once|].
  by eapply walk_via.
Qed.

Lemma walk_short g l x y : acyclic g → walk g l x y → length l ≤ length (links g).
Proof.
  intros Hac Hw.
  rewrite <- (length_fmap (λ e : Pad * Pad, owner e.2) (links g)).
  apply submseteq_length, NoDup_submseteq; [by eapply walk_NoDup|].
  intros n Hn. by eapply walk_sources.
Qed.

Lemma would_cycle_spec g o i :
  acyclic g → would_cycle g o i = true ↔ closes_cycle g o i.
Proof.
  intros Hac. unfold would_cycle, closes_cycle. split.
  - apply reach_sound.
  - intros [l Hl]%rtc_walk. eapply reach_walk; [done|]. by eapply walk_short.
Qed.

(** *** Adding one edge *)

Lemma tc_extend {A} (R R' : relation A) a b x y :
  (∀ u v, R' u v → R u v ∨ (u = a ∧ v = b)) →
  tc R' x y → tc R x y ∨ (rtc R x a ∧ rtc R b y).
Proof.
  intros Hstep. induction 1 as [x y Hxy | x y z Hxy _ IH].
  - destruct (Hstep _ _ Hxy) as [? | [-> ->]]; [left; by apply tc_once|].
    right. split; constructor.
  - destruct (Hstep _ _ Hxy) as [HR | [-> ->]], IH as [IH | [IHa IHb]].
    + left. by eapply tc_l.
    + right. split; [by eapply rtc_l|done].
    + right. split; [constructor|by apply tc_rtc].
    + right. split; [constructor|done].
Qed.

Lemma flows_insert g i o cc x y :
  flows {| edges := <[i := o]> (edges g); consumer_count := cc |} x y →
  flows g x y ∨ (x = owner o ∧ y = owner i).
Proof.
  intros (i' & o' & Hio & <- & <-). simpl in Hio.
  destruct (decide (i = i')) as [<- | Hne].
  - rewrite lookup_insert_eq in Hio. injection Hio as <-. by right.
  - rewrite lookup_insert_ne in Hio by done. left. by exists i', o'.
Qed.

Lemma empty_acyclic : acyclic empty.
Proof.
  intros x Hx. apply tc_nsteps in Hx as (n & Hn & Hsteps).
  destruct Hsteps as [| ? ? ? ? (i & o & Hio & _)]; [lia|].
  simpl in Hio. by rewrite lookup_empty in Hio.
Qed.

Lemma connect_cases g o i :
  (would_cycle g o i = true ∧ connect o i g = (g, Some CycleError)) ∨
  (would_cycle g o i = false ∧ is_Some (edges g !! i) ∧
     connect o i g = (g, Some AlreadyConnectedError)) ∨
  (would_cycle g o i = false ∧ edges g !! i = None ∧
     connect o i g =
       ({| edges := <[i := o]> (edges g);
           consumer_count := <[o := (count g o + 1)%Z]> (consumer_count g) |}, None)).
Proof.
  unfold connect. destruct (would_cycle g o i); [by left|].
  right. destruct (edges g !! i) eqn:E; [left|right]; eauto.
Qed.

Lemma connect_acyclic g o i : acyclic g → acyclic (connect o i g).1.
Proof.
  intros Hac.
  destruct (connect_cases g o i) as [[_ ->] | [(_ & _ & ->) | (Hw & Hi & ->)]];
    [done..|]. simpl.
  intros x Hx.
  eapply (tc_extend (flows g)) in Hx as [Hx | [Ha Hb]];
    [by apply (Hac x) | | apply flows_insert].
  assert (closes_cycle g o i) as Hc by (by eapply rtc_trans).
  apply would_cycle_spec in Hc; [congruence|done].
Qed.

Lemma connect_all_acyclic calls g : acyclic g → acyclic (connect_all calls g).
Proof.
  revert g. induction calls as [|[o i] calls IH]; intros g Hac; [done|].
  apply IH. by apply connect_acyclic.
Qed.

(** *** Consumer counts *)




Lemma connect_idem g o i : (connect o i (connect o i g).1).1 = (connect o i g).1.
Proof.
  destruct (connect_cases g o i) as [[_ E] | [(_ & _ & E) | (_ & _ & E)]];
    rewrite E; simpl; [by rewrite E..|].
  match goal with |- (connect o i ?g').1 = _ => set (g1 := g') end.
  destruct (connect_cases g1 o i) as [[_ E1] | [(_ & _ & E1) | (_ & Hnone & _)]];
    [by rewrite E1..|].
  unfold g1 in Hnone; simpl in Hnone. by rewrite lookup_insert_eq in Hnone.
Qed.

(** C7.  On every graph built by a sequence of [connect] calls: the
    connection relation is acyclic; a call whose edge would close a cycle
    fails with [CycleError], and a call on an input pad that already has a
    source fails with [AlreadyConnectedError] (the cycle test comes first,
    as in the contract's wording), both leaving the graph as it was; any
    other call succeeds, records the edge and increments the output pad's
    consumer count, leaving the other counts alone. *)
Theorem connect_contract (calls : list (Pad * Pad)) (o i : Pad) :
  let g := connect_all calls empty in
  acyclic g ∧
  (closes_cycle g o i → connect o i g = (g, Some CycleError)) ∧
  (¬ closes_cycle g o i → is_Some (edges g !! i) →
     connect o i g = (g, Some AlreadyConnectedError)) ∧
  (¬ closes_cycle g o i → edges g !! i = None →
     ∃ g', connect o i g = (g', None) ∧
           edges g' = <[i := o]> (edges g) ∧
           count g' o = (count g o + 1)%Z ∧
           (∀ o', o' ≠ o → count g' o' = count g o') ∧
           acyclic g').
Proof.
  intros g.
  assert (acyclic g) as Hac by apply connect_all_acyclic, empty_acyclic.
  pose proof (would_cycle_spec g o i Hac) as Hspec.
  pose proof (connect_acyclic g o i Hac) as Hac'.
  split; [done|].
  destruct (connect_cases g o i) as [[Hw E] | [(Hw & Hi & E) | (Hw & Hi & E)]];
    rewrite E in *; (split; [|split]).
  - done.
  - intros Hn. destruct Hn. by apply Hspec.
  - intros Hn. destruct Hn. by apply Hspec.
  - intros Hc%Hspec. congruence.
  - done.
  - intros _ Hnone. rewrite Hnone in Hi. by destruct Hi.
  - intros Hc%Hspec. congruence.
  - intros _ [? Hsome]. congruence.
  - intros _ _. eexists. split; [done|]. simpl. split; [done|].
    unfold count at 1 3; simpl. rewrite lookup_insert_eq. split; [done|].
    split; [|done]. intros o' Hne. unfold count; simpl.
    by rewrite lookup_insert_ne.
Qed.

Example connect_chain3_cycle :
  connect (3, "output"%string) (1, "input"%string) chain3 = (chain3, Some CycleError).
Proof. vm_compute. reflexivity. Qed.

Example connect_chain3_taken :
  connect (1, "output"%string) (3, "input"%string) chain3
  = (chain3, Some AlreadyConnectedError).
Proof. vm_compute. reflexivity. Qed.

Example connect_chain3_fanout :
  count (connect (1, "output"%string) (3, "aux"%string) chain3).1 (1, "output"%string)
  = 2%Z.
Proof. vm_compute. reflexivity. Qed.

End GraphFacts.

(** ** Evaluation visitor: facts *)

Module VisitorFacts.

Import Graph GraphFacts Visitor.

Section visitor_facts.

Context {Buffer : Type} (ops : @Ops Buffer) (g : Graph.t).

(** *** At most one computation per pad *)







(** *** Memoization, fuel, and invariants of the traversal *)


(** With a ranking of the nodes along the connections, fuel above the rank
    of the requested node is enough for the pass to run to its end. *)
Lemma resolve_enough_fuel (rank : Node → nat) :
  (∀ i o, edges g !! i = Some o → rank (owner o) < rank (owner i)) →
  ∀ fuel p st, rank (owner p) < fuel → (resolve ops g fuel p st).2 ≠ OutOfFuel.
Proof.
  intros Hrank. induction fuel as [|f IH]; intros p st Hlt; [lia|]. simpl.
  destruct (resolved st !! p); [done|].
  assert (∀ names st0,
    (resolve_inputs ops g (resolve ops g f) (owner p) names st0).2 ≠ OutOfFuel)
    as Hin.
  { induction names as [|name rest IHn]; intros st0; simpl; [done|].
    destruct (edges g !! (owner p, name)) as [src|] eqn:Hsrc; [|done].
    apply Hrank in Hsrc. simpl in Hsrc.
    specialize (IH src st0 ltac:(lia)).
    destruct (resolve ops g f src st0) as [st1 [b|q|]]; simpl in *; [|done..].
    specialize (IHn (consume ops src (owner p, name) b st1)).
    by destruct (resolve_inputs _ _ _ _ rest _) as [st2 [slots|q|]]. }
  specialize (Hin (input_pads ops (owner p)) st).
  destruct (resolve_inputs _ _ _ _ _ st) as [st1 [slots|q|]]; simpl in *; [|done..].
  unfold run_compute. by destruct (compute _ _ _ _).
Qed.


End visitor_facts.

(** *** Consumer counts and release *)







Section release_facts.

Context {Buffer : Type} (ops : @Ops Buffer) (g : Graph.t).




End release_facts.






Example fan_compute_order :
  computed (trace (evaluate fan_ops fan 3 (5, "output"%string)).1)
  = [(1, "output"); (2, "output"); (3, "output"); (4, "output"); (5, "output")]%string.
Proof. vm_compute. reflexivity. Qed.

Example fan_result :
  (evaluate fan_ops fan 3 (5, "output"%string)).2 = Ok (Some 17).
Proof. vm_compute. reflexivity. Qed.

Example fan_release_steps :
  filter (λ e, consumes (1, "output"%string) e)
         (trace (evaluate fan_ops fan 3 (5, "output"%string)).1)
  = [EvConsume (1, "output") (2, "input") false;
     EvConsume (1, "output") (3, "input") false;
     EvConsume (1, "output") (4, "input") true]%string.
Proof. vm_compute. reflexivity. Qed.

(** A pass that requests the output of node 2 reaches one of the three
    consumers of node 1 only: the buffer of node 1 is consumed once and is
    still held when the pass ends. *)
Example fan_partial_pass :
  let tr := trace (evaluate fan_ops fan 3 (2, "output"%string)).1 in
  (evaluate fan_ops fan 3 (2, "output"%string)).2 = Ok (Some 3) ∧
  consumptions (1, "output"%string) tr = 1 ∧ releases (1, "output"%string) tr = 0.
Proof. vm_compute. split_and!; reflexivity. Qed.


(** A consuming input pad is resolved once for each output pad of its node
    that is resolved.  In [twin] the buffer of node 1 has two consumers; a
    request for the output of node 4 resolves both output pads of node 2,
    so the input pad of node 2 consumes that buffer twice and the second
    time releases it; the input pad of node 3, resolved after that, finds
    the buffer absent. *)
Example twin_consumptions :
  fan_out twin (1, "output"%string) = 2 ∧
  trace (evaluate twin_ops twin 4 (4, "output"%string)).1
  = [EvCompute (1, "output");
     EvConsume (1, "output") (2, "input") false;
     EvCompute (2, "a");
     EvConsume (2, "a") (4, "x") true;
     EvConsume (1, "output") (2, "input") true;
     EvCompute (2, "b");
     EvConsume (2, "b") (4, "y") true;
     EvMissingBuffer (3, "input");
     EvConsume (1, "output") (3, "input") false;
     EvCompute (3, "output");
     EvConsume (3, "output") (4, "z") true;
     EvCompute (4, "output")]%string.
Proof. vm_compute. split; reflexivity. Qed.

End VisitorFacts.

(** ** The layer meta-operation ([operations/meta/layer.c]): facts *)

Module LayerFacts.

Import Graph GraphFacts Layer.

Section layer_facts.

Context {gdouble GeglBuffer : Type}.
Variable load_output : nat → option string → GeglBuffer.

Abbreviation State := (@State gdouble GeglBuffer).
Abbreviation Priv := (@Priv GeglBuffer).
Abbreviation Config := (@Config gdouble).
Abbreviation Instance := (@Instance gdouble GeglBuffer).
Abbreviation GeglGraph := (@GeglGraph gdouble GeglBuffer).
Abbreviation refreshed := (Layer.refreshed load_output).

(** C10.  On an instance whose [associate] has run, [dispose] releases the
    cached buffer at most once and frees the cached path at most once, and
    leaves both fields NULL; a second [dispose] releases nothing more (it
    only chains up to the parent class) and leaves the private data as the
    first one left it. *)
Theorem dispose_idempotent (st : State) (p : Priv) :
  priv st = Some p →
  ∃ st1 p1 new,
    dispose st = Done st1 ∧ priv st1 = Some p1 ∧
    cached_buffer p1 = None ∧ cached_path p1 = None ∧
    log st1 = log st ++ new ∧ unrefs new ≤ 1 ∧ frees new ≤ 1 ∧
    (is_Some (cached_buffer p) → unrefs new = 1) ∧
    (is_Some (cached_path p) → frees new = 1) ∧
    ∃ st2,
      dispose st1 = Done st2 ∧ priv st2 = priv st1 ∧ graph st2 = graph st1 ∧
      log st2 = log st1 ++ [EvParentDispose].
Proof.
  intros Hp. unfold dispose. rewrite Hp.
  eexists _, _, _. split; [done|]. simpl. split; [done|]. simpl.
  unfold unrefs, frees.
  split_and!; try done.
  - destruct (cached_buffer p), (cached_path p); simpl; lia.
  - destruct (cached_buffer p), (cached_path p); simpl; lia.
  - intros [b ->]. by destruct (cached_path p).
  - intros [c ->]. by destruct (cached_buffer p).
  - eexists. split; [done|]. done.
Qed.

(** *** [associate] *)

Lemma associate_fresh (n : Node) (cfg : Config) :
  associate (fresh n cfg)
  = Done ({| node := n; config := cfg; priv := Some (associated_priv n);
             graph := associated_graph (cfg_composite_op cfg); log := [] |} : State).
Proof. vm_compute. reflexivity. Qed.

Lemma associated_edges_list :
  map_to_list associated_edges ≡ₚ
    [((5, "input"), (6, "output")); ((4, "input"), (5, "output"));
     ((3, "aux"), (4, "output")); ((3, "input"), (0, "output"));
     ((2, "input"), (3, "output"))]%string.
Proof.
  unfold associated_edges. apply map_to_list_to_map.
  apply (bool_decide_unpack _). vm_compute. exact I.
Qed.

Lemma aux_proxy_unconnected (g : GeglGraph) :
  edges (wiring g) = associated_edges →
  inputs g !! "aux"%string = Some 1 →
  ¬ wired_in g "aux".
Proof.
  intros He Hin (n & sink & Hn & Hsink).
  assert (n = 1) as -> by congruence. rewrite He in Hsink.
  apply elem_of_map_to_list in Hsink. rewrite associated_edges_list in Hsink.
  repeat (apply elem_of_cons in Hsink as [Hsink | Hsink]; [congruence|]).
  by apply elem_of_nil in Hsink.
Qed.

(** C2.  On a newly created instance [associate] creates four children and
    builds the chain load -> opacity -> shift -> composite, shift feeding
    the composite node's "aux" pad; it maps each of the external pads
    "input", "aux" and "output" of the node to a proxy child of its own, and
    connects the "input" proxy to the composite node's input and the
    composite node's output to the "output" proxy. *)
Theorem associate_wiring (n : Node) (cfg : Config) :
  ∃ (st : State) (p : Priv),
    associate (fresh n cfg) = Done st ∧ priv st = Some p ∧
    let g := graph st in
    let E := edges (wiring g) in
    E !! (opacity p, "input"%string) = Some (load p, "output"%string) ∧
    E !! (shift p, "input"%string) = Some (opacity p, "output"%string) ∧
    E !! (composite_op p, "aux"%string) = Some (shift p, "output"%string) ∧
    inputs g !! "input"%string = Some (input p) ∧
    inputs g !! "aux"%string = Some (aux p) ∧
    outputs g !! "output"%string = Some (output p) ∧
    E !! (composite_op p, "input"%string) = Some (input p, "output"%string) ∧
    E !! (output p, "input"%string) = Some (composite_op p, "output"%string) ∧
    props g !! (load p, "operation"%string) = Some (VString "buffer") ∧
    props g !! (opacity p, "operation"%string) = Some (VString "opacity") ∧
    props g !! (shift p, "operation"%string) = Some (VString "shift") ∧
    props g !! (composite_op p, "operation"%string)
      = Some (VString (cfg_composite_op cfg)) ∧
    NoDup [input p; aux p; output p; composite_op p; shift p; opacity p; load p] ∧
    Forall (λ x, x < children g)
      [input p; aux p; output p; composite_op p; shift p; opacity p; load p].
Proof.
  eexists _, (associated_priv n). split; [apply associate_fresh|].
  split; [done|]. cbn [graph wiring associated_graph edges inputs outputs props
                         children associated_priv input aux output composite_op
                         shift opacity load].
  split_and!; try (vm_compute; reflexivity).
  - apply (bool_decide_unpack _). vm_compute. exact I.
  - repeat (constructor; [lia|]). constructor.
Qed.

(** The "aux" proxy is still unconnected when [associate] returns, while
    the "input" and "output" proxies are connected to the composite node. *)
Lemma associate_aux_pending (n : Node) (cfg : Config) (st : State) :
  associate (fresh n cfg) = Done st →
  wired_in (graph st) "input" ∧ wired_out (graph st) "output" ∧
  ¬ wired_in (graph st) "aux".
Proof.
  rewrite associate_fresh. intros [= <-]. split_and!.
  - exists 0, (3, "input"%string). by vm_compute.
  - exists 2, (3, "output"%string). by vm_compute.
  - apply aux_proxy_unconnected; [done|]. by vm_compute.
Qed.

Lemma associate_null (st : State) :
  priv st = None → ∃ st' p, associate st = Done st' ∧ priv st' = Some p.
Proof.
  intros Hp. unfold associate. rewrite Hp.
  repeat match goal with
         | |- context [let '(_, _) := ?e in _] => destruct e
         end.
  by eexists _, _.
Qed.

Lemma associate_again (st : State) :
  is_Some (priv st) → associate st = AssertionFailed.
Proof. intros [p Hp]. unfold associate. by rewrite Hp. Qed.

Lemma refresh_cache_priv (st st' : State) :
  refresh_cache load_output st = Done st' → is_Some (priv st) ∧ is_Some (priv st').
Proof.
  unfold refresh_cache. destruct (priv st) as [p|] eqn:Hp; [|done].
  destruct (stale p _); intros [= <-]; simpl; rewrite ?Hp; eauto.
Qed.

Lemma prepare_priv (st st' : State) :
  prepare load_output st = Done st' → is_Some (priv st) ∧ is_Some (priv st').
Proof.
  unfold prepare. destruct (priv st) as [p|] eqn:Hp; [|done].
  destruct (cfg_src (config st)) as [s|]; [|done].
  case_bool_decide; simpl.
  - destruct (refresh_cache _ _) as [st1| |] eqn:Hr; simpl; [|done..].
    apply refresh_cache_priv in Hr as [_ [p1 Hp1]]. rewrite Hp1. simpl.
    intros [= <-]. simpl. eauto.
  - intros [= <-]. simpl. rewrite Hp. eauto.
Qed.

Lemma prepare_not_assert (st : State) : prepare load_output st ≠ AssertionFailed.
Proof.
  unfold prepare. destruct (priv st) as [p|] eqn:Hp; [|done].
  destruct (cfg_src (config st)) as [s|]; [|done].
  case_bool_decide; simpl; [|done].
  unfold refresh_cache; simpl. rewrite Hp.
  destruct (stale p _); simpl; [done|]. by rewrite Hp.
Qed.

Lemma dispose_priv (st st' : State) :
  dispose st = Done st' → is_Some (priv st) ∧ is_Some (priv st').
Proof.
  unfold dispose. destruct (priv st) as [p|]; [|done].
  intros [= <-]. simpl. eauto.
Qed.

Lemma serve_in_step (inst : Instance) cfg :
  in_step inst →
  serve load_output inst cfg ≠ AssertionFailed ∧
  ∀ inst' : Instance, serve load_output inst cfg = Done inst' →
           in_step inst' ∧ associated inst' = true.
Proof.
  intros [Hflag Hcalls]. unfold serve, need_structure.
  destruct (associated inst) eqn:Hass; simpl.
  - destruct (prepare _ _) as [st'| |] eqn:Hprep; simpl;
      [|by apply prepare_not_assert in Hprep|done].
    split; [done|]. intros inst' [= <-]. unfold in_step; simpl.
    apply prepare_priv in Hprep as [_ ?]. rewrite Hass. by split_and!.
  - assert (priv (state inst) = None) as Hnone.
    { destruct (priv (state inst)) eqn:E; [|done].
      destruct Hflag as [_ Hflag]. by specialize (Hflag ltac:(eauto)). }
    destruct (associate_null _ Hnone) as (st1 & p1 & -> & Hp1). simpl.
    destruct (prepare _ _) as [st'| |] eqn:Hprep; simpl;
      [|by apply prepare_not_assert in Hprep|done].
    split; [done|]. intros inst' [= <-]. unfold in_step; simpl.
    apply prepare_priv in Hprep as [_ ?]. rewrite Hcalls. by split_and!.
Qed.

Lemma run_in_step cfgs (inst : Instance) :
  in_step inst →
  run load_output cfgs inst ≠ AssertionFailed ∧
  ∀ inst' : Instance, run load_output cfgs inst = Done inst' → in_step inst'.
Proof.
  unfold run. revert inst. induction cfgs as [|cfg cfgs IH]; intros inst Hinv; simpl.
  - split; [done|]. by intros inst' [= <-].
  - destruct (serve_in_step inst cfg Hinv) as [Hna Hok].
    destruct (serve load_output inst cfg) as [inst1| |] eqn:Hs; [|done|].
    + destruct (Hok _ eq_refl) as [Hinv1 _]. by apply IH.
    + clear. split.
      * induction cfgs as [|c cs IHc]; simpl; done.
      * induction cfgs as [|c cs IHc]; simpl; done.
Qed.

(** C4.  [associate] succeeds on an instance whose private data is still
    NULL and allocates it; on an instance whose private data is allocated
    the assertion at its head fails; [prepare] and [dispose] never reset
    the private data.  Served lazily and once by the framework, an instance
    never fails the assertion, whatever sequence of [prepare] requests it
    gets, and [associate] has run at most once on it. *)
Theorem associate_once :
  (∀ st : State, priv st = None →
     ∃ st' p, associate st = Done st' ∧ priv st' = Some p) ∧
  (∀ st : State, is_Some (priv st) → associate st = AssertionFailed) ∧
  (∀ st st' : State, is_Some (priv st) →
     prepare load_output st = Done st' ∨ dispose st = Done st' →
     is_Some (priv st')) ∧
  (∀ n cfg cfgs,
     run load_output cfgs (created n cfg) ≠ AssertionFailed ∧
     ∀ inst : Instance, run load_output cfgs (created n cfg) = Done inst →
             associate_calls inst ≤ 1 ∧
             (is_Some (priv (state inst)) ↔ associate_calls inst = 1)).
Proof.
  split_and!.
  - apply associate_null.
  - apply associate_again.
  - intros st st' _ [H%prepare_priv | H%dispose_priv]; tauto.
  - intros n cfg cfgs.
    assert (in_step (created n cfg : Instance)) as Hinv.
    { split; simpl; [|done]. split; [done|]. by intros [? ?]. }
    destruct (run_in_step cfgs _ Hinv) as [Hna Hok]. split; [done|].
    intros inst [Hflag Hcalls]%Hok. rewrite Hcalls.
    destruct (associated inst); (split; [lia|]); split; try done.
    + intros _. by apply Hflag.
    + by intros H%Hflag.
Qed.

(** *** [prepare] and the cached asset *)

Lemma prepare_with_src (st : State) p s :
  priv st = Some p → cfg_src (config st) = Some s → s ≠ ""%string →
  prepare load_output st =
    Done {| node := node st; config := config st;
            priv := Some (refreshed p s (log st)).1;
            graph := configure p (config st)
                       (gegl_node_set (load p) "buffer"
                          (VBuffer (cached_buffer (refreshed p s (log st)).1)))
                       (graph st);
            log := (refreshed p s (log st)).2 |}.
Proof.
  intros Hp Hs Hne. unfold prepare, refresh_cache, refreshed, configure.
  rewrite Hp, Hs. simpl. rewrite Hp, Hs, (bool_decide_eq_true_2 _ Hne). simpl.
  destruct (stale p (Some s)); cbn; rewrite ?Hp; cbn;
    unfold set_graph; cbn; rewrite ?Hp; reflexivity.
Qed.

Lemma prepare_without_src (st : State) p :
  priv st = Some p → cfg_src (config st) = Some ""%string →
  prepare load_output st =
    Done {| node := node st; config := config st; priv := Some p;
            graph := configure p (config st)
                       (gegl_node_connect (opacity p) "input" (aux p) "output")
                       (graph st);
            log := log st |}.
Proof.
  intros Hp Hs. unfold prepare, configure. rewrite Hp, Hs. cbn.
  unfold set_graph; cbn; rewrite ?Hp; reflexivity.
Qed.

Lemma stale_spec (p : Priv) s :
  cache_coherent p →
  stale p (Some s) = true ↔ cached_buffer p = None ∨ cached_path p ≠ Some s.
Proof.
  unfold cache_coherent, stale. intros Hco.
  destruct (cached_buffer p) as [b|]; [|by intuition].
  destruct (cached_path p) as [cp|].
  - rewrite negb_true_iff, bool_decide_eq_false. split.
    + intros Hne. right. by intros [= ->].
    + intros [[=] | Hne] ->. done.
  - destruct (Hco ltac:(eauto)) as [? [=]].
Qed.

Lemma refreshed_fresh p s l :
  stale (refreshed p s l).1 (Some s) = false ∧
  (stale p (Some s) = false → refreshed p s l = (p, l)).
Proof.
  unfold refreshed. destruct (stale p (Some s)) eqn:E; simpl; [|done].
  split; [|done]. unfold stale; simpl. by rewrite bool_decide_eq_true_2.
Qed.

Lemma refreshed_nodes p s l :
  let p' := (refreshed p s l).1 in
  composite_op p' = composite_op p ∧ shift p' = shift p ∧
  opacity p' = opacity p ∧ load p' = load p ∧ aux p' = aux p.
Proof. unfold refreshed. by destruct (stale p (Some s)). Qed.

Lemma loads_app (l1 l2 : list (@Event GeglBuffer)) :
  loads (l1 ++ l2) = loads l1 ++ loads l2.
Proof. apply omap_app. Qed.

Lemma refreshed_loads p s l :
  loads (refreshed p s l).2
  = loads l ++ (if stale p (Some s) then [Some s] else []).
Proof.
  unfold refreshed. destruct (stale p (Some s)); simpl; [|by rewrite app_nil_r].
  rewrite !loads_app. f_equal.
  destruct (cached_buffer p); [destruct (cached_path p)|]; done.
Qed.

(** *** Setting the same properties twice *)

Lemma graph_eq (g h : GeglGraph) :
  wiring g = wiring h → props g = props h → children g = children h →
  inputs g = inputs h → outputs g = outputs h → g = h.
Proof. destruct g, h. simpl. by intros -> -> -> -> ->. Qed.

Lemma node_set_props n k v (g : GeglGraph) :
  props (gegl_node_set n k v g) = <[(n, k) := v]> (props g).
Proof. reflexivity. Qed.

Lemma node_set_rest n k v (g : GeglGraph) :
  wiring (gegl_node_set n k v g) = wiring g ∧
  children (gegl_node_set n k v g) = children g ∧
  inputs (gegl_node_set n k v g) = inputs g ∧
  outputs (gegl_node_set n k v g) = outputs g.
Proof. done. Qed.

Lemma node_connect_wiring sink sink_pad source source_pad (g : GeglGraph) :
  wiring (gegl_node_connect sink sink_pad source source_pad g)
  = (connect (source, source_pad) (sink, sink_pad) (wiring g)).1.
Proof. reflexivity. Qed.

Lemma node_connect_rest sink sink_pad source source_pad (g : GeglGraph) :
  props (gegl_node_connect sink sink_pad source source_pad g) = props g ∧
  children (gegl_node_connect sink sink_pad source source_pad g) = children g ∧
  inputs (gegl_node_connect sink sink_pad source source_pad g) = inputs g ∧
  outputs (gegl_node_connect sink sink_pad source source_pad g) = outputs g.
Proof. done. Qed.

Ltac project :=
  repeat first
    [ rewrite node_set_props
    | rewrite (proj1 (node_set_rest _ _ _ _))
    | rewrite (proj1 (proj2 (node_set_rest _ _ _ _)))
    | rewrite (proj1 (proj2 (proj2 (node_set_rest _ _ _ _))))
    | rewrite (proj2 (proj2 (proj2 (node_set_rest _ _ _ _))))
    | rewrite node_connect_wiring
    | rewrite (proj1 (node_connect_rest _ _ _ _ _))
    | rewrite (proj1 (proj2 (node_connect_rest _ _ _ _ _)))
    | rewrite (proj1 (proj2 (proj2 (node_connect_rest _ _ _ _ _))))
    | rewrite (proj2 (proj2 (proj2 (node_connect_rest _ _ _ _ _)))) ].

Ltac key_set :=
  repeat (rewrite lookup_insert_ne by congruence); apply lookup_insert_eq.

Lemma configure_set_twice (p : Priv) (cfg : Config) n v (g : GeglGraph) :
  configure p cfg (gegl_node_set n "buffer" v)
    (configure p cfg (gegl_node_set n "buffer" v) g)
  = configure p cfg (gegl_node_set n "buffer" v) g.
Proof.
  unfold configure. apply graph_eq; project; try done.
  rewrite (insert_id _ (composite_op p, "operation"%string)) by key_set.
  rewrite (insert_id _ (n, "buffer"%string)) by key_set.
  rewrite (insert_id _ (opacity p, "value"%string)) by key_set.
  rewrite (insert_id _ (shift p, "x"%string)) by key_set.
  by rewrite (insert_id _ (shift p, "y"%string)) by key_set.
Qed.

Lemma configure_connect_twice (p : Priv) (cfg : Config) sink sink_pad source
    source_pad (g : GeglGraph) :
  configure p cfg (gegl_node_connect sink sink_pad source source_pad)
    (configure p cfg (gegl_node_connect sink sink_pad source source_pad) g)
  = configure p cfg (gegl_node_connect sink sink_pad source source_pad) g.
Proof.
  unfold configure. apply graph_eq; project; try done.
  - apply connect_idem.
  - rewrite (insert_id _ (composite_op p, "operation"%string)) by key_set.
    rewrite (insert_id _ (opacity p, "value"%string)) by key_set.
    rewrite (insert_id _ (shift p, "x"%string)) by key_set.
    by rewrite (insert_id _ (shift p, "y"%string)) by key_set.
Qed.

Lemma configure_nodes (p p' : Priv) (cfg : Config) mid (g : GeglGraph) :
  composite_op p' = composite_op p → shift p' = shift p → opacity p' = opacity p →
  configure p' cfg mid g = configure p cfg mid g.
Proof. unfold configure. by intros -> -> ->. Qed.

Lemma prepare_done (st st1 : State) :
  prepare load_output st = Done st1 →
  ∃ p s, priv st = Some p ∧ cfg_src (config st) = Some s.
Proof.
  unfold prepare. destruct (priv st) as [p|]; [|done].
  destruct (cfg_src (config st)) as [s|]; [|done]. eauto.
Qed.

(** C3.  A second [prepare] under the same configuration changes nothing:
    the wiring and properties of the children, the cached buffer, the
    last-used path and the log are as the first call left them. *)
Theorem prepare_idempotent (st st1 : State) :
  prepare load_output st = Done st1 → prepare load_output st1 = Done st1.
Proof.
  intros H. destruct (prepare_done _ _ H) as (p & s & Hp & Hs).
  destruct (decide (s = ""%string)) as [-> | Hne].
  - rewrite (prepare_without_src st p Hp Hs) in H. injection H as <-.
    erewrite prepare_without_src; [|done..]. simpl.
    by rewrite configure_connect_twice.
  - rewrite (prepare_with_src st p s Hp Hs Hne) in H. injection H as <-.
    erewrite prepare_with_src; [|done..]. simpl.
    destruct (refreshed_fresh p s (log st)) as [Hfresh _].
    destruct (refreshed_fresh (refreshed p s (log st)).1 s (refreshed p s (log st)).2)
      as [_ Hkeep].
    rewrite (Hkeep Hfresh). simpl.
    destruct (refreshed_nodes p s (log st)) as (Hc & Hsh & Hop & Hl & _).
    rewrite (configure_nodes p _ _ _ _ Hc Hsh Hop), Hl.
    by rewrite configure_set_twice.
Qed.

(** C1.  On an instance in a coherent state, [prepare] with a non-empty
    source path [s] reloads the asset exactly when no cached buffer exists
    or the last-used path differs from [s]: then the path is loaded once,
    the old cached buffer (if any) is unreffed, and the new buffer and path
    are recorded; otherwise nothing is loaded and the cache is as before.
    A second [prepare] with the same path loads nothing, and a [prepare]
    after a change to another non-empty path loads exactly once. *)
Theorem prepare_reloads_on_change (st : State) (p : Priv) (s : string) :
  priv st = Some p → cfg_src (config st) = Some s → s ≠ ""%string →
  cache_coherent p →
  ∃ (st1 : State) (p1 : Priv) new,
    prepare load_output st = Done st1 ∧ priv st1 = Some p1 ∧
    log st1 = log st ++ new ∧ cache_coherent p1 ∧
    (if decide (cached_buffer p = None ∨ cached_path p ≠ Some s)
     then loads new = [Some s] ∧
          (∀ old, cached_buffer p = Some old → EvUnrefBuffer old ∈ new) ∧
          cached_path p1 = Some s ∧
          cached_buffer p1 = Some (load_output (length (loads (log st))) (Some s))
     else new = [] ∧ p1 = p) ∧
    (∃ st2 : State,
       prepare load_output st1 = Done st2 ∧ loads (log st2) = loads (log st1) ∧
       priv st2 = priv st1) ∧
    (∀ s', s' ≠ ""%string → s' ≠ s →
       ∃ st2 : State,
         prepare load_output (set_src s' st1) = Done st2 ∧
         loads (log st2) = loads (log st1) ++ [Some s']).
Proof.
  intros Hp Hs Hne Hco.
  pose proof (prepare_with_src st p s Hp Hs Hne) as Hprep.
  pose proof (stale_spec p s Hco) as Hstale.
  destruct (refreshed_fresh p s (log st)) as [Hfresh _].
  set (p1 := (refreshed p s (log st)).1) in *.
  assert (cache_coherent p1 ∧ is_Some (cached_buffer p1) ∧
          cached_path p1 = (if stale p (Some s) then Some s else cached_path p))
    as (Hco1 & Hbuf1 & Hpath1).
  { unfold p1, refreshed. destruct (stale p (Some s)) eqn:E; simpl.
    - split; [by intros _; eauto|]. split; [eauto|done].
    - split; [done|]. split; [|done]. unfold stale in E.
      destruct (cached_buffer p); [eauto|done]. }
  eexists _, p1, (drop (length (log st)) (refreshed p s (log st)).2).
  split; [exact Hprep|]. simpl. split; [done|]. split_and!.
  - unfold refreshed. destruct (stale p (Some s)); simpl.
    + by rewrite drop_app_length.
    + by rewrite drop_all, app_nil_r.
  - done.
  - unfold p1, refreshed. case_decide as Hd.
    + apply Hstale in Hd. rewrite Hd. simpl. rewrite drop_app_length.
      split_and!; try done.
      * rewrite !loads_app.
        destruct (cached_buffer p); [destruct (cached_path p)|]; done.
      * intros old ->. apply elem_of_app. left. apply elem_of_cons. by left.
    + destruct (stale p (Some s)) eqn:E; [by destruct Hd; apply Hstale|].
      simpl. by rewrite drop_all.
  - destruct (refreshed_fresh p1 s (refreshed p s (log st)).2) as [_ Hkeep].
    eexists. split.
    { apply (prepare_with_src _ p1 s); done. }
    simpl. rewrite (Hkeep Hfresh). done.
  - intros s' Hne' Hdiff.
    eexists. split.
    { apply (prepare_with_src (set_src s' _) p1 s'); done. }
    simpl. rewrite refreshed_loads.
    assert (stale p1 (Some s') = true) as ->; [|done].
    apply stale_spec; [done|]. right. rewrite Hpath1.
    destruct (stale p (Some s)) eqn:E; [congruence|].
    intros Heq. destruct Hbuf1 as [b Hb].
    unfold p1, refreshed in Hfresh. rewrite E in Hfresh. simpl in Hfresh.
    unfold stale in E. destruct (cached_buffer p); [|done].
    rewrite Heq in E. rewrite negb_false_iff, bool_decide_eq_true in E. done.
Qed.

(** *** Coherence is kept along the life of an instance *)

Lemma refreshed_coherent (p : Priv) s l :
  cache_coherent p → cache_coherent (refreshed p s l).1.
Proof.
  unfold refreshed, cache_coherent. intros Hco.
  destruct (stale p (Some s)); simpl; eauto.
Qed.

Lemma prepare_coherent (st st1 : State) p :
  priv st = Some p → cache_coherent p → prepare load_output st = Done st1 →
  ∃ p1, priv st1 = Some p1 ∧ cache_coherent p1.
Proof.
  intros Hp Hco H. destruct (prepare_done _ _ H) as (p' & s & Hp' & Hs).
  assert (p' = p) as -> by congruence.
  destruct (decide (s = ""%string)) as [-> | Hne].
  - rewrite (prepare_without_src st p Hp Hs) in H. injection H as <-. eauto.
  - rewrite (prepare_with_src st p s Hp Hs Hne) in H. injection H as <-.
    eexists. split; [done|]. by apply refreshed_coherent.
Qed.

Lemma associate_coherent (st st1 : State) :
  associate st = Done st1 → ∃ p1, priv st1 = Some p1 ∧ cache_coherent p1.
Proof.
  unfold associate. destruct (priv st); [done|].
  repeat match goal with
         | |- context [let '(_, _) := ?e in _] => destruct e
         end.
  intros [= <-]. eexists. split; [done|]. by intros [? [=]].
Qed.

Lemma dispose_coherent (st st1 : State) :
  dispose st = Done st1 → ∃ p1, priv st1 = Some p1 ∧ cache_coherent p1.
Proof.
  unfold dispose. destruct (priv st); [|done].
  intros [= <-]. eexists. split; [done|]. by intros [? [=]].
Qed.

Lemma run_coherent cfgs n cfg (inst : Instance) p :
  run load_output cfgs (created n cfg) = Done inst →
  priv (state inst) = Some p → cache_coherent p.
Proof.
  assert (∀ inst0 : Instance,
            (∀ p0, priv (state inst0) = Some p0 → cache_coherent p0) →
            (associated inst0 = false → priv (state inst0) = None) →
            run load_output cfgs inst0 = Done inst →
            priv (state inst) = Some p → cache_coherent p) as Hgen.
  { unfold run. induction cfgs as [|c cs IH]; intros inst0 Hinv Hflag; simpl.
    - intros [= <-]. apply Hinv.
    - destruct (serve load_output inst0 c) as [inst1| |] eqn:Hs.
      + apply IH.
        * unfold serve, need_structure in Hs.
          destruct (associated inst0) eqn:Ha; simpl in Hs.
          -- destruct (prepare _ _) as [st1| |] eqn:Hprep; [|done..].
             injection Hs as <-. simpl. intros p0 Hp0.
             destruct (prepare_done _ _ Hprep) as (q & s & Hq & _).
             destruct (prepare_coherent _ _ q Hq (Hinv _ Hq) Hprep) as (p1 & Hp1 & ?).
             by assert (p0 = p1) as -> by congruence.
          -- destruct (associate _) as [st0| |] eqn:Hassoc; [|done..].
             simpl in Hs.
             destruct (prepare _ _) as [st1| |] eqn:Hprep; [|done..].
             injection Hs as <-. simpl. intros p0 Hp0.
             destruct (associate_coherent _ _ Hassoc) as (q & Hq & Hcq).
             destruct (prepare_coherent (set_config c st0) st1 q Hq Hcq Hprep)
               as (p1 & Hp1 & ?).
             by assert (p0 = p1) as -> by congruence.
        * unfold serve, need_structure in Hs.
          destruct (associated inst0) eqn:Ha; simpl in Hs.
          -- destruct (prepare _ _); [|done..]. injection Hs as <-. simpl.
             by rewrite Ha.
          -- destruct (associate _); [|done..]. simpl in Hs.
             destruct (prepare _ _); [|done..]. by injection Hs as <-.
      + intros Habs. exfalso. clear -Habs.
        induction cs as [|c' cs' IHc]; simpl in *; [done|by apply IHc].
      + intros Habs. exfalso. clear -Habs.
        induction cs as [|c' cs' IHc]; simpl in *; [done|by apply IHc]. }
  apply Hgen; simpl; done.
Qed.

End layer_facts.

(** *** A concrete instance *)

Lemma prepare_reloads_on_change_witness :
  ∃ st1, prepare nth_load (demo_state "b.png") = Done st1 ∧
         loads (log st1) = [Some "b.png"%string] ∧
         EvUnrefBuffer 7 ∈ log st1.
Proof.
  destruct (prepare_reloads_on_change nth_load (demo_state "b.png") demo_priv "b.png")
    as (st1 & p1 & new & Hprep & _ & Hlog & _ & Hrule & _);
    [reflexivity | reflexivity | discriminate | intros _; simpl; eauto |].
  exists st1. split; [exact Hprep|].
  rewrite decide_True in Hrule by (right; discriminate).
  destruct Hrule as (Hloads & Hold & _).
  rewrite Hlog. simpl. split; [exact Hloads|]. by apply Hold.
Defined.

Lemma prepare_idempotent_witness :
  prepare nth_load demo_prepared = Done demo_prepared.
Proof.
  apply (prepare_idempotent nth_load (demo_state "")). reflexivity.
Defined.

Lemma dispose_idempotent_witness :
  ∃ st1 st2, dispose (demo_state "a.png") = Done st1 ∧
             dispose st1 = Done st2 ∧ priv st2 = priv st1 ∧
             log st2 = log st1 ++ [EvParentDispose].
Proof.
  destruct (dispose_idempotent (demo_state "a.png") demo_priv eq_refl)
    as (st1 & p1 & new & H1 & _ & _ & _ & _ & _ & _ & _ & _ & st2 & H2 & Hp & _ & Hlog).
  exists st1, st2. split; [exact H1|]. split; [exact H2|]. split; [exact Hp|].
  exact Hlog.
Defined.

(** The empty source path: [prepare] asks for the connection of the "aux"
    proxy to the opacity node's input.  That input already has the load
    node as its source, so under the contract of [connect] the request is
    refused and the wiring stays as [associate] left it. *)
Example prepare_without_src_wiring :
  (st ← associate (fresh 0 (demo_config ""));
   st ← prepare nth_load st;
   Done (map_to_list (edges (wiring (graph st)))))
  = Done (map_to_list associated_edges).
Proof. vm_compute. reflexivity. Qed.

(** *** Sequences of calls: what the log and the cache always agree on *)

Section layer_calls_facts.

Context {gdouble GeglBuffer : Type}.
Variable load_output : nat → option string → GeglBuffer.

Abbreviation State := (@State gdouble GeglBuffer).
Abbreviation Priv := (@Priv GeglBuffer).
Abbreviation Config := (@Config gdouble).
Abbreviation Call := (@Call gdouble).
Abbreviation refreshed := (Layer.refreshed load_output).
Abbreviation tally := (Layer.tally load_output).
Abbreviation calls := (Layer.calls load_output).

Lemma unrefs_app (l1 l2 : list (@Event GeglBuffer)) :
  unrefs (l1 ++ l2) = unrefs l1 + unrefs l2.
Proof. unfold unrefs. by rewrite omap_app, length_app. Qed.

Lemma frees_app (l1 l2 : list (@Event GeglBuffer)) :
  frees (l1 ++ l2) = frees l1 + frees l2.
Proof. unfold frees. by rewrite omap_app, length_app. Qed.

Lemma refreshed_tally (p : Priv) s l :
  tally p l → tally (refreshed p s l).1 (refreshed p s l).2.
Proof.
  intros (Hiff & Hun & Hfr & Hlast). unfold Layer.refreshed.
  destruct (stale p (Some s)); [|done]. simpl.
  assert (cached_buffer p = None → cached_path p = None) as Hnone.
  { intros Hb. destruct (cached_path p) eqn:Hpth; [|done].
    destruct Hiff as [_ Hiff]. destruct (Hiff ltac:(eauto)) as [? ?]. congruence. }
  assert (is_Some (cached_buffer p) → is_Some (cached_path p)) as Hsome by apply Hiff.
  split_and!.
  - simpl. split; eauto.
  - rewrite !unrefs_app, !loads_app, !length_app.
    destruct (cached_buffer p) as [old|];
      [destruct (Hsome ltac:(eauto)) as [cp ->]|rewrite Hnone in * by done];
      unfold unrefs in *; simpl in *; lia.
  - rewrite !frees_app, !loads_app, !length_app.
    destruct (cached_buffer p) as [old|];
      [destruct (Hsome ltac:(eauto)) as [cp Hcp]; rewrite Hcp in *
      |rewrite Hnone in * by done];
      unfold frees in *; simpl in *; lia.
  - simpl. intros b [= <-]. exists (loads l). split; [|done].
    rewrite !loads_app.
    destruct (cached_buffer p); [destruct (cached_path p)|]; simpl;
      by rewrite ?app_nil_r.
Qed.

Lemma dispose_tally (st : State) (p : Priv) :
  priv st = Some p → tally p (log st) →
  ∃ st' p', dispose st = Done st' ∧ priv st' = Some p' ∧ tally p' (log st') ∧
            cached_buffer p' = None ∧ cached_path p' = None.
Proof.
  intros Hp (Hiff & Hun & Hfr & Hlast). unfold dispose. rewrite Hp.
  eexists _, _. split; [done|]. simpl. split; [done|]. split; [|done].
  split_and!; simpl.
  - split; by intros [? [=]].
  - rewrite unrefs_app, loads_app, length_app, unrefs_app.
    destruct (cached_buffer p), (cached_path p);
      unfold unrefs in *; simpl in *; lia.
  - rewrite frees_app, loads_app, length_app, frees_app.
    destruct (cached_buffer p), (cached_path p);
      unfold frees in *; simpl in *; lia.
  - by intros b [=].
Qed.

Lemma prepare_tally (st : State) (p : Priv) :
  priv st = Some p → is_Some (cfg_src (config st)) → tally p (log st) →
  ∃ st' p', prepare load_output st = Done st' ∧ priv st' = Some p' ∧
            tally p' (log st').
Proof.
  intros Hp [s Hs] Htally.
  destruct (decide (s = ""%string)) as [-> | Hne].
  - rewrite (prepare_without_src load_output st p Hp Hs). by eexists _, _.
  - rewrite (prepare_with_src load_output st p s Hp Hs Hne).
    eexists _, _. split; [done|]. simpl. split; [done|].
    by apply refreshed_tally.
Qed.

Lemma call_tally (c : Call) (st : State) (p : Priv) :
  has_src c → priv st = Some p → tally p (log st) →
  ∃ st' p', call load_output c st = Done st' ∧ priv st' = Some p' ∧
            tally p' (log st').
Proof.
  destruct c as [cfg|]; simpl; intros Hsrc Hp Htally.
  - by apply (prepare_tally (set_config cfg st) p).
  - destruct (dispose_tally st p Hp Htally) as (st' & p' & ? & ? & ? & _).
    by exists st', p'.
Qed.

Lemma calls_tally (cs : list Call) (st : State) (p : Priv) :
  Forall has_src cs → priv st = Some p → tally p (log st) →
  ∃ st' p', calls cs st = Done st' ∧ priv st' = Some p' ∧ tally p' (log st').
Proof.
  unfold Layer.calls. intros Hcs. revert st p.
  induction Hcs as [|c cs Hc _ IH]; intros st p Hp Htally; simpl.
  - by exists st, p.
  - destruct (call_tally c st p Hc Hp Htally) as (st1 & p1 & -> & Hp1 & Ht1).
    by apply (IH st1 p1).
Qed.

Lemma associate_tally (st st0 : State) :
  associate st = Done st0 → log st = [] →
  ∃ p0, priv st0 = Some p0 ∧ tally p0 (log st0).
Proof.
  unfold associate. destruct (priv st); [done|].
  repeat match goal with
         | |- context [let '(_, _) := ?e in _] => destruct e
         end.
  intros [= <-] Hlog. eexists. split; [done|]. simpl. rewrite Hlog.
  split_and!; simpl; try done.
Qed.

(** *** The ledger: which buffer, which path *)

Abbreviation ledger := (Layer.ledger load_output).
Abbreviation delivered := (Layer.delivered load_output).

Lemma unreffed_app (l1 l2 : list (@Event GeglBuffer)) :
  unreffed (l1 ++ l2) = unreffed l1 ++ unreffed l2.
Proof. apply omap_app. Qed.

Lemma freed_app (l1 l2 : list (@Event GeglBuffer)) :
  freed (l1 ++ l2) = freed l1 ++ freed l2.
Proof. apply omap_app. Qed.

Lemma twice_snoc {A} (D : list A) (b : A) :
  (D ++ D) ++ [b; b] ≡ₚ (D ++ [b]) ++ (D ++ [b]).
Proof.
  rewrite <- !app_assoc. f_equiv.
  rewrite (Permutation_app_comm D [b; b]). simpl. constructor.
  apply Permutation_cons_append.
Qed.

Lemma refreshed_ledger (p : Priv) s l :
  tally p l → ledger p l → ledger (refreshed p s l).1 (refreshed p s l).2.
Proof.
  intros (Hiff & _) [Hbuf Hpath]. unfold Layer.refreshed.
  destruct (stale p (Some s)); [|done]. cbn [fst snd].
  assert (delivered (l ++ match cached_buffer p with
                          | Some old =>
                              EvUnrefBuffer old
                              :: (if cached_path p is Some cp
                                  then [EvFreePath cp] else [])
                          | None => []
                          end
                       ++ [EvLoad (Some s);
                           EvUnrefBuffer (load_output (length (loads l)) (Some s));
                           EvUnrefGraph])
          = delivered l ++ [load_output (length (loads l)) (Some s)]) as Hdel.
  { unfold Layer.delivered. rewrite !loads_app.
    replace (loads match cached_buffer p with
                   | Some old =>
                       EvUnrefBuffer old
                       :: (if cached_path p is Some cp then [EvFreePath cp] else [])
                   | None => []
                   end) with (@nil (option string))
      by (by destruct (cached_buffer p), (cached_path p)).
    cbn [app loads omap list_omap]. rewrite imap_app. cbn [imap].
    by rewrite Nat.add_0_r. }
  split.
  - rewrite Hdel. clear Hdel. rewrite !unreffed_app. cbn [set_cache cached_buffer option_list].
    rewrite <- twice_snoc, <- Hbuf.
    destruct (cached_buffer p) as [old|]; [destruct (cached_path p)|];
      simpl; rewrite <- ?app_assoc; done.
  - clear Hdel. rewrite !freed_app, !loads_app. cbn [set_cache cached_path].
    destruct (cached_buffer p) as [old|].
    + destruct (proj1 Hiff ltac:(eauto)) as [cp Hcp]. rewrite Hcp in *.
      simpl. by rewrite fmap_app, <- Hpath.
    + assert (cached_path p = None) as Hnone.
      { destruct (cached_path p) eqn:Hcp; [|done].
        destruct (proj2 Hiff ltac:(eauto)) as [? [=]]. }
      rewrite Hnone in *.
      simpl. rewrite !app_nil_r in *. by rewrite Hpath.
Qed.

Lemma dispose_ledger (st : State) (p : Priv) :
  priv st = Some p → ledger p (log st) →
  ∃ st' p', dispose st = Done st' ∧ priv st' = Some p' ∧ ledger p' (log st') ∧
            cached_buffer p' = None ∧ cached_path p' = None.
Proof.
  intros Hp [Hbuf Hpath]. unfold dispose. rewrite Hp.
  eexists _, _. split; [done|]. cbn [priv log emit set_priv].
  split; [done|]. split; [|done].
  split; cbn [set_cache cached_buffer cached_path option_list].
  - unfold Layer.delivered in *. rewrite !unreffed_app, !loads_app.
    destruct (cached_buffer p), (cached_path p);
      simpl in *; rewrite ?app_nil_r in *; done.
  - rewrite !freed_app, !loads_app.
    destruct (cached_buffer p), (cached_path p);
      simpl in *; rewrite ?app_nil_r in *; rewrite ?fmap_app; done.
Qed.

Lemma call_ledger (c : Call) (st : State) (p : Priv) :
  has_src c → priv st = Some p → tally p (log st) → ledger p (log st) →
  ∃ st' p', call load_output c st = Done st' ∧ priv st' = Some p' ∧
            tally p' (log st') ∧ ledger p' (log st').
Proof.
  destruct c as [cfg|]; cbn [call has_src]; intros Hsrc Hp Htally Hledger.
  - destruct Hsrc as [s Hs].
    destruct (decide (s = ""%string)) as [-> | Hne].
    + rewrite (prepare_without_src load_output (set_config cfg st) p Hp Hs).
      by eexists _, _.
    + rewrite (prepare_with_src load_output (set_config cfg st) p s Hp Hs Hne).
      eexists _, _. split; [done|]. cbn [priv log set_config]. split; [done|].
      split; [by apply refreshed_tally | by apply refreshed_ledger].
  - destruct (dispose_tally st p Hp Htally) as (st' & p' & Hd & Hp' & Ht & _).
    destruct (dispose_ledger st p Hp Hledger) as (st'' & p'' & Hd' & Hp'' & Hl & _).
    assert (st'' = st') as -> by congruence.
    assert (p'' = p') as -> by congruence.
    by exists st', p'.
Qed.

Lemma calls_ledger (cs : list Call) (st : State) (p : Priv) :
  Forall has_src cs → priv st = Some p → tally p (log st) → ledger p (log st) →
  ∃ st' p', calls cs st = Done st' ∧ priv st' = Some p' ∧
            tally p' (log st') ∧ ledger p' (log st').
Proof.
  unfold Layer.calls. intros Hcs. revert st p.
  induction Hcs as [|c cs Hc _ IH]; intros st p Hp Htally Hledger; simpl.
  - by exists st, p.
  - destruct (call_ledger c st p Hc Hp Htally Hledger)
      as (st1 & p1 & -> & Hp1 & Ht1 & Hl1).
    by apply (IH st1 p1).
Qed.

Lemma associate_ledger (st st0 : State) :
  associate st = Done st0 → log st = [] →
  ∃ p0, priv st0 = Some p0 ∧ ledger p0 (log st0).
Proof.
  unfold associate. destruct (priv st); [done|].
  repeat match goal with
         | |- context [let '(_, _) := ?e in _] => destruct e
         end.
  intros [= <-] Hlog. eexists. split; [done|]. simpl. rewrite Hlog.
  by split.
Qed.

(** X1.  The whole life of an instance: [associate], any calls of
    [prepare] and [dispose] with [src] never NULL, then [dispose] and
    [finalize].  All of them return; by the end each buffer that a load
    delivered has been unreffed exactly twice (the unrefs are the
    delivered buffers, each taken twice) and each path loaded has been
    freed exactly once (the frees are the loaded paths), so that in total
    there are twice as many unrefs as loads and as many frees as loads; and
    [finalize] has added the release of the private data and nothing about
    the cache. *)
Theorem lifecycle_settles_loads (n : Node) (cfg : Config) (cs : list Call) :
  Forall has_src cs →
  ∃ st0 st st' : State,
    associate (fresh n cfg) = Done st0 ∧ calls cs st0 = Done st ∧
    dispose st = Done st' ∧
    log (finalize st') = log st' ++ [EvFreePriv; EvParentFinalize] ∧
    unreffed (log (finalize st'))
      ≡ₚ delivered (log (finalize st')) ++ delivered (log (finalize st')) ∧
    Some <$> freed (log (finalize st')) ≡ₚ loads (log (finalize st')) ∧
    unrefs (log (finalize st')) = 2 * length (loads (log (finalize st'))) ∧
    frees (log (finalize st')) = length (loads (log (finalize st'))).
Proof.
  intros Hcs.
  destruct (associate_null (fresh n cfg : State) eq_refl) as (st0 & p & Hst0 & _).
  destruct (associate_tally _ _ Hst0 eq_refl) as (p0 & Hp0 & Ht0).
  destruct (associate_ledger _ _ Hst0 eq_refl) as (p0' & Hp0' & Hl0).
  assert (p0' = p0) as -> by congruence.
  destruct (calls_ledger cs st0 p0 Hcs Hp0 Ht0 Hl0)
    as (st & p1 & Hst & Hp1 & Ht1 & Hl1).
  destruct (dispose_tally st p1 Hp1 Ht1)
    as (st' & p' & Hst' & Hp' & (_ & Hun & Hfr & _) & Hb & Hpth).
  destruct (dispose_ledger st p1 Hp1 Hl1)
    as (st'' & p'' & Hst'' & Hp'' & [Hbuf Hpath] & _).
  assert (st'' = st') as -> by congruence.
  assert (p'' = p') as -> by congruence.
  rewrite Hb in Hbuf. rewrite Hpth in Hpath. cbn [option_list] in Hbuf.
  rewrite app_nil_r in Hbuf, Hpath.
  assert (log (finalize st') = log st' ++ [EvFreePriv; EvParentFinalize]) as Hfin.
  { unfold finalize. simpl. by rewrite Hp'. }
  exists st0, st, st'. split_and!; try done.
  - rewrite Hfin, unreffed_app. unfold Layer.delivered. rewrite loads_app.
    cbn [unreffed loads omap list_omap]. by rewrite !app_nil_r.
  - rewrite Hfin, freed_app, loads_app.
    cbn [freed loads omap list_omap]. by rewrite !app_nil_r.
  - rewrite Hfin, unrefs_app, loads_app, length_app.
    rewrite Hb in Hun. unfold unrefs at 2. simpl. lia.
  - rewrite Hfin, frees_app, loads_app, length_app.
    rewrite Hpth in Hfr. unfold frees at 2. simpl. lia.
Qed.

(** X2.  After any such calls, a [prepare] under a non-empty path [s] leaves the
    load node showing the cached buffer, the cached path being [s] and the
    cached buffer being what the most recent load delivered, a load of
    [s]. *)
Theorem load_node_shows_latest (n : Node) (cfg : Config) (cs : list Call)
    (cfg' : Config) (s : string) :
  Forall has_src cs → cfg_src cfg' = Some s → s ≠ ""%string →
  ∃ (st0 st st' : State) (p : Priv) l,
    associate (fresh n cfg) = Done st0 ∧ calls cs st0 = Done st ∧
    prepare load_output (set_config cfg' st) = Done st' ∧ priv st' = Some p ∧
    cached_path p = Some s ∧
    loads (log st') = l ++ [Some s] ∧
    cached_buffer p = Some (load_output (length l) (Some s)) ∧
    props (graph st') !! (load p, "buffer"%string)
      = Some (VBuffer (cached_buffer p)).
Proof.
  intros Hcs Hs Hne.
  destruct (associate_null (fresh n cfg : State) eq_refl) as (st0 & p & Hst0 & _).
  destruct (associate_tally _ _ Hst0 eq_refl) as (p0 & Hp0 & Ht0).
  destruct (calls_tally cs st0 p0 Hcs Hp0 Ht0) as (st & p1 & Hst & Hp1 & Ht1).
  pose proof (prepare_with_src load_output (set_config cfg' st) p1 s Hp1 Hs Hne)
    as Hprep. simpl in Hprep.
  pose proof (refreshed_tally p1 s (log st) Ht1) as (Hiff & _ & _ & Hlast).
  destruct (refreshed_fresh load_output p1 s (log st)) as [Hfresh _].
  destruct (refreshed_nodes load_output p1 s (log st)) as (_ & _ & _ & Hload & _).
  set (p2 := (refreshed p1 s (log st)).1) in *.
  assert (∃ b, cached_buffer p2 = Some b) as [b Hb].
  { unfold stale in Hfresh. destruct (cached_buffer p2); [eauto|done]. }
  assert (cached_path p2 = Some s) as Hpath.
  { destruct Hiff as [Hiff _]. destruct (Hiff ltac:(eauto)) as [cp Hcp].
    unfold stale in Hfresh. rewrite Hb, Hcp in Hfresh.
    apply negb_false_iff, bool_decide_eq_true in Hfresh. by subst. }
  destruct (Hlast b Hb) as (l0 & Hl0 & Hbl0). rewrite Hpath in Hl0, Hbl0.
  eexists st0, st, _, p2, l0. split; [done|]. split; [done|].
  split; [exact Hprep|]. simpl. split_and!; try done.
  - by rewrite Hb, Hbl0.
  - rewrite Hload.
    repeat (rewrite lookup_insert_ne by congruence). apply lookup_insert_eq.
Qed.

Ltac frame :=
  repeat first
    [ rewrite node_set_props
    | rewrite (proj1 (node_set_rest _ _ _ _))
    | rewrite (proj1 (proj2 (node_set_rest _ _ _ _)))
    | rewrite (proj1 (proj2 (proj2 (node_set_rest _ _ _ _))))
    | rewrite (proj2 (proj2 (proj2 (node_set_rest _ _ _ _))))
    | rewrite node_connect_wiring
    | rewrite (proj1 (node_connect_rest _ _ _ _ _))
    | rewrite (proj1 (proj2 (node_connect_rest _ _ _ _ _)))
    | rewrite (proj1 (proj2 (proj2 (node_connect_rest _ _ _ _ _))))
    | rewrite (proj2 (proj2 (proj2 (node_connect_rest _ _ _ _ _)))) ].

Ltac at_key :=
  repeat (rewrite lookup_insert_ne by congruence); apply lookup_insert_eq.

Lemma refreshed_handles (p : Priv) s l :
  let p' := (refreshed p s l).1 in
  self p' = self p ∧ input p' = input p ∧ output p' = output p.
Proof. unfold Layer.refreshed. by destruct (stale p (Some s)). Qed.

(** X3.  What [prepare] touches.  On an associated instance with a
    non-NULL [src] it returns, and then: the node handles of the private
    data, the instance's configuration, and the children and proxies of the
    graph are what they were; the connections too unless [src] is empty; of
    the properties only the five it sets can have changed; and the four
    taken from the configuration have the configured values. *)
Theorem prepare_reconfigures_only (st : State) (p : Priv) :
  priv st = Some p → is_Some (cfg_src (config st)) →
  ∃ (st' : State) (p' : Priv),
    prepare load_output st = Done st' ∧ priv st' = Some p' ∧
    node st' = node st ∧ config st' = config st ∧
    (self p', input p', aux p', output p') = (self p, input p, aux p, output p) ∧
    (composite_op p', shift p', opacity p', load p')
      = (composite_op p, shift p, opacity p, load p) ∧
    children (graph st') = children (graph st) ∧
    inputs (graph st') = inputs (graph st) ∧
    outputs (graph st') = outputs (graph st) ∧
    (cfg_src (config st) ≠ Some ""%string →
     wiring (graph st') = wiring (graph st)) ∧
    (∀ k, k ∉ prepared_keys p →
          props (graph st') !! k = props (graph st) !! k) ∧
    props (graph st') !! (composite_op p, "operation"%string)
      = Some (VString (cfg_composite_op (config st))) ∧
    props (graph st') !! (opacity p, "value"%string)
      = Some (VDouble (cfg_opacity (config st))) ∧
    props (graph st') !! (shift p, "x"%string)
      = Some (VDouble (cfg_x (config st))) ∧
    props (graph st') !! (shift p, "y"%string)
      = Some (VDouble (cfg_y (config st))).
Proof.
  intros Hp [s Hs].
  assert (∀ k, k ∉ prepared_keys p →
               k ≠ (composite_op p, "operation"%string) ∧
               k ≠ (load p, "buffer"%string) ∧
               k ≠ (opacity p, "value"%string) ∧
               k ≠ (shift p, "x"%string) ∧ k ≠ (shift p, "y"%string)) as Hkeys.
  { intros k Hk. unfold prepared_keys in Hk.
    rewrite !not_elem_of_cons in Hk. by destruct Hk as (? & ? & ? & ? & ? & _). }
  destruct (decide (s = ""%string)) as [-> | Hne].
  - rewrite (prepare_without_src load_output st p Hp Hs).
    eexists _, p. split; [done|].
    cbn [priv node config graph log]. unfold configure.
    split_and!; frame; try done; try at_key.
    intros k Hk. destruct (Hkeys k Hk) as (? & ? & ? & ? & ?).
    by rewrite !lookup_insert_ne by done.
  - rewrite (prepare_with_src load_output st p s Hp Hs Hne).
    destruct (refreshed_nodes load_output p s (log st)) as (Hc & Hsh & Hop & Hld & Hax).
    destruct (refreshed_handles p s (log st)) as (Hself & Hin & Hout).
    eexists _, _. split; [done|].
    cbn [priv node config graph log]. unfold configure.
    split_and!; frame; try done; try at_key.
    + by rewrite Hself, Hin, Hout, Hax.
    + by rewrite Hc, Hsh, Hop, Hld.
    + intros k Hk. destruct (Hkeys k Hk) as (? & ? & ? & ? & ?).
      by rewrite !lookup_insert_ne by done.
Qed.

(** X4.  An empty [src] does not drop the cache.  With a buffer cached for
    the path [s], a [prepare] under the empty path and then one under [s]
    again both return without loading, unreffing or freeing anything: the
    private data and the log are what they were, and the load node ends up
    showing the buffer that was cached all along. *)
Theorem prepare_empty_src_keeps_cache (st : State) (p : Priv) (s : string)
    (b : GeglBuffer) :
  priv st = Some p → cached_buffer p = Some b → cached_path p = Some s →
  s ≠ ""%string →
  ∃ st1 st2 : State,
    prepare load_output (set_src "" st) = Done st1 ∧
    prepare load_output (set_src s st1) = Done st2 ∧
    priv st1 = Some p ∧ log st1 = log st ∧
    props (graph st1) !! (load p, "buffer"%string)
      = props (graph st) !! (load p, "buffer"%string) ∧
    priv st2 = Some p ∧ log st2 = log st ∧
    props (graph st2) !! (load p, "buffer"%string) = Some (VBuffer (Some b)).
Proof.
  intros Hp Hb Hpath Hne.
  pose proof (prepare_without_src load_output (set_src "" st) p Hp eq_refl) as H1.
  cbn [priv node config graph log set_src set_config] in H1.
  eexists _, _. split; [exact H1|].
  assert (stale p (Some s) = false) as Hstale.
  { unfold stale. rewrite Hb, Hpath. by rewrite bool_decide_eq_true_2. }
  destruct (refreshed_fresh load_output p s (log st)) as [_ Hsame].
  specialize (Hsame Hstale).
  match type of H1 with _ = Done ?r =>
    pose proof (prepare_with_src load_output (set_src s r) p s eq_refl eq_refl Hne) as H2
  end.
  cbn [priv node config graph log set_src set_config] in H2.
  rewrite Hsame in H2. cbn [fst snd] in H2.
  split; [exact H2|].
  cbn [priv node config graph log]. unfold configure.
  split_and!; frame; try done.
  - by rewrite !lookup_insert_ne by congruence.
  - rewrite Hb. at_key.
Qed.

(** X5.  [associate] runs once per instance and no more: after it, and
    after whatever calls of [prepare] and [dispose] follow, a further
    [associate] fails its assertion, since neither resets the pointer to
    the private data. *)
Theorem associate_never_again (n : Node) (cfg : Config) (cs : list Call) :
  Forall has_src cs →
  ∃ st0 st : State,
    associate (fresh n cfg) = Done st0 ∧ associate st0 = AssertionFailed ∧
    calls cs st0 = Done st ∧ associate st = AssertionFailed.
Proof.
  intros Hcs.
  destruct (associate_null (fresh n cfg : State) eq_refl) as (st0 & p & Hst0 & _).
  destruct (associate_tally _ _ Hst0 eq_refl) as (p0 & Hp0 & Ht0).
  destruct (calls_tally cs st0 p0 Hcs Hp0 Ht0) as (st & p1 & Hst & Hp1 & _).
  exists st0, st. split_and!; try done; apply associate_again; eauto.
Qed.

(** X6.  [finalize] leaves the cache alone.  When the last call before it
    was a [prepare] under a non-empty path rather than a [dispose], the
    buffer and the path then cached are never released: the log ends one
    unref and one free short. *)
Theorem finalize_without_dispose (n : Node) (cfg : Config) (cs : list Call)
    (cfg' : Config) (s : string) :
  Forall has_src cs → cfg_src cfg' = Some s → s ≠ ""%string →
  ∃ st0 st st' : State,
    associate (fresh n cfg) = Done st0 ∧ calls cs st0 = Done st ∧
    prepare load_output (set_config cfg' st) = Done st' ∧
    unrefs (log (finalize st')) + 1 = 2 * length (loads (log (finalize st'))) ∧
    frees (log (finalize st')) + 1 = length (loads (log (finalize st'))).
Proof.
  intros Hcs Hs Hne.
  destruct (associate_null (fresh n cfg : State) eq_refl) as (st0 & p & Hst0 & _).
  destruct (associate_tally _ _ Hst0 eq_refl) as (p0 & Hp0 & Ht0).
  destruct (calls_tally cs st0 p0 Hcs Hp0 Ht0) as (st & p1 & Hst & Hp1 & Ht1).
  pose proof (prepare_with_src load_output (set_config cfg' st) p1 s Hp1 Hs Hne)
    as Hprep. cbn [priv node config graph log set_config] in Hprep.
  pose proof (refreshed_tally p1 s (log st) Ht1) as (Hiff & Hun & Hfr & _).
  destruct (refreshed_fresh load_output p1 s (log st)) as [Hfresh _].
  set (p2 := (refreshed p1 s (log st)).1) in *.
  assert (∃ b, cached_buffer p2 = Some b) as [b Hb].
  { unfold stale in Hfresh. destruct (cached_buffer p2); [eauto|done]. }
  destruct Hiff as [Hiff _]. destruct (Hiff ltac:(eauto)) as [cp Hcp].
  rewrite Hb in Hun. rewrite Hcp in Hfr.
  eexists st0, st, _. split; [done|]. split; [done|]. split; [exact Hprep|].
  unfold finalize. cbn [priv node config graph log emit].
  rewrite unrefs_app, frees_app, loads_app, length_app.
  unfold unrefs at 2, frees at 2. simpl. lia.
Qed.

End layer_calls_facts.

Lemma lifecycle_settles_loads_witness :
  ∃ st0 st st' : @State Z nat,
    associate (fresh 0 (demo_config "a.png")) = Done st0 ∧
    calls nth_load demo_calls st0 = Done st ∧ dispose st = Done st' ∧
    unreffed (log (finalize st'))
      ≡ₚ delivered nth_load (log (finalize st'))
         ++ delivered nth_load (log (finalize st')) ∧
    unrefs (log (finalize st')) = 2 * length (loads (log (finalize st'))).
Proof.
  destruct (lifecycle_settles_loads nth_load 0 (demo_config "a.png") demo_calls)
    as (st0 & st & st' & H0 & H1 & H2 & _ & H3 & _ & H4 & _);
    [repeat constructor; simpl; eauto|].
  exists st0, st, st'. split; [exact H0|]. split; [exact H1|].
  split; [exact H2|]. split; [exact H3|exact H4].
Defined.

Lemma load_node_shows_latest_witness :
  ∃ (st0 st st' : @State Z nat) p,
    associate (fresh 0 (demo_config "a.png")) = Done st0 ∧
    calls nth_load demo_calls st0 = Done st ∧
    prepare nth_load (set_config (demo_config "c.png") st) = Done st' ∧
    priv st' = Some p ∧ cached_path p = Some "c.png"%string.
Proof.
  destruct (load_node_shows_latest nth_load 0 (demo_config "a.png") demo_calls
              (demo_config "c.png") "c.png")
    as (st0 & st & st' & p & l & H0 & H1 & H2 & H3 & H4 & _);
    [repeat constructor; simpl; eauto | reflexivity | discriminate |].
  exists st0, st, st', p. split; [exact H0|]. split; [exact H1|].
  split; [exact H2|]. split; [exact H3|exact H4].
Defined.

Lemma prepare_reconfigures_only_witness :
  ∃ st' : @State Z nat,
    prepare nth_load (demo_state "b.png") = Done st' ∧
    props (graph st') !! (5, "value"%string) = Some (VDouble 1%Z) ∧
    props (graph st') !! (3, "operation"%string) = Some (VString "over").
Proof.
  destruct (prepare_reconfigures_only nth_load (demo_state "b.png") demo_priv)
    as (st' & p' & H & _ & _ & _ & _ & _ & _ & _ & _ & _ & _ & Hop & Hval & _);
    [reflexivity | simpl; eauto |].
  exists st'. split; [exact H|]. split; [exact Hval|exact Hop].
Defined.

Lemma prepare_empty_src_keeps_cache_witness :
  ∃ st1 st2 : @State Z nat,
    prepare nth_load (set_src "" (demo_state "a.png")) = Done st1 ∧
    prepare nth_load (set_src "a.png" st1) = Done st2 ∧
    priv st2 = Some demo_priv ∧ log st2 = [] ∧
    props (graph st2) !! (6, "buffer"%string) = Some (VBuffer (Some 7)).
Proof.
  destruct (prepare_empty_src_keeps_cache nth_load (demo_state "a.png") demo_priv
              "a.png" 7)
    as (st1 & st2 & H1 & H2 & _ & _ & _ & Hp & Hl & Hb);
    [reflexivity | reflexivity | reflexivity | discriminate |].
  exists st1, st2. split; [exact H1|]. split; [exact H2|].
  split; [exact Hp|]. split; [exact Hl|exact Hb].
Defined.

Lemma associate_never_again_witness :
  ∃ st0 st : @State Z nat,
    associate (fresh 0 (demo_config "a.png")) = Done st0 ∧
    calls nth_load demo_calls st0 = Done st ∧
    associate st = AssertionFailed.
Proof.
  destruct (associate_never_again nth_load 0 (demo_config "a.png") demo_calls)
    as (st0 & st & H0 & _ & H1 & H2); [repeat constructor; simpl; eauto|].
  exists st0, st. split; [exact H0|]. split; [exact H1|exact H2].
Defined.

Lemma finalize_without_dispose_witness :
  ∃ st0 st st' : @State Z nat,
    associate (fresh 0 (demo_config "a.png")) = Done st0 ∧
    calls nth_load demo_calls st0 = Done st ∧
    prepare nth_load (set_config (demo_config "c.png") st) = Done st' ∧
    unrefs (log (finalize st')) + 1 = 2 * length (loads (log (finalize st'))).
Proof.
  destruct (finalize_without_dispose nth_load 0 (demo_config "a.png") demo_calls
              (demo_config "c.png") "c.png")
    as (st0 & st & st' & H0 & H1 & H2 & H3 & _);
    [repeat constructor; simpl; eauto | reflexivity | discriminate |].
  exists st0, st, st'. split; [exact H0|]. split; [exact H1|].
  split; [exact H2|exact H3].
Defined.

End LayerFacts.

(** ** The generated compositors ([svg-12-porter-duff.rb], [other-blend.rb]): facts *)

Module CompositorFacts.

Import Compositor.

Section compositor_facts.

Context {gfloat g4float : Type} `{!FloatOps gfloat g4float}.

(** *** The SIMD loop *)

Lemma glong_wrap_id z : (- 2 ^ 63 ≤ z < 2 ^ 63)%Z → glong_wrap z = z.
Proof. intros Hz. unfold glong_wrap. rewrite Z.mod_small; lia. Qed.

Lemma read_mapped {V} a k (st : Store V) :
  is_Some (mem st !! (a + k)) → ∃ v, read (Some a) k st = Ret v.
Proof. intros [v Hv]. exists v. unfold read. by rewrite Hv. Qed.

Lemma write_mapped {V} a k (v : V) (st : Store V) :
  is_Some (mem st !! (a + k)) →
  write (Some a) k v st
  = Ret {| mem := <[a + k := v]> (mem st); applied := applied st |}.
Proof. intros [w Hw]. unfold write. by rewrite Hw. Qed.

(** One pixel of the SIMD loop: on mapped addresses the formula ends
    normally and stores into [*D] only. *)
Lemma sse_formula_mapped op a b d (st : Store g4float) :
  is_Some (mem st !! a) → is_Some (mem st !! b) → is_Some (mem st !! d) →
  ∃ v, sse_formula op (Some a) (Some b) (Some d) st
       = Ret {| mem := <[d := v]> (mem st); applied := applied st |}.
Proof.
  intros [va Ha] [vb Hb] [vd Hd].
  assert (∀ w, is_Some (<[d := w]> (mem st) !! a)) as Ha'.
  { intros w. rewrite lookup_insert. case_decide; eauto. }
  assert (∀ w, is_Some (<[d := w]> (mem st) !! b)) as Hb'.
  { intros w. rewrite lookup_insert. case_decide; eauto. }
  destruct op; unfold sse_formula, read, write; simpl;
    rewrite ?Nat.add_0_r, ?Ha, ?Hb, ?Hd; simpl;
    rewrite ?Nat.add_0_r, ?lookup_insert_eq; simpl; eauto.
  - destruct (Hb' (g4_add (g4float_mul va (g4floatA vb))
                     (g4float_mul vb (f_sub (f_lit 1) (g4floatA va))))) as [w ->].
    cbn. rewrite insert_insert_eq. eauto.
  - destruct (Ha' (g4_add (g4float_mul vb (g4floatA va))
                     (g4float_mul va (f_sub (f_lit 1) (g4floatA vb))))) as [w ->].
    cbn. rewrite insert_insert_eq. eauto.
Qed.

Lemma simd_loop_runs op (k : nat) :
  ∀ fuel (n : Z) a b d (st : Store g4float),
    n = (Z.of_nat k + 1)%Z → (n < 2 ^ 63)%Z → k ≤ fuel →
    (∀ i, i < k → is_Some (mem st !! (a + i)) ∧ is_Some (mem st !! (b + i)) ∧
                  is_Some (mem st !! (d + i))) →
    ∃ st', simd_loop op fuel n (Some a) (Some b) (Some d) st = Ret st' ∧
           applied st' = applied st ++ seq d k ∧
           dom (mem st') = dom (mem st) ∧
           ∀ j, j < d ∨ d + k ≤ j → mem st' !! j = mem st !! j.
Proof.
  induction k as [|k IH]; intros fuel n a b d st Hn Hrange Hfuel Hmap.
  - exists st. subst n. destruct fuel; simpl; rewrite app_nil_r; done.
  - destruct fuel as [|fuel]; [lia|]. simpl.
    rewrite glong_wrap_id by lia.
    destruct (Z.eqb_spec (n - 1) 0) as [?|_]; [lia|].
    destruct (Hmap 0 ltac:(lia)) as (Ha & Hb & Hd). rewrite !Nat.add_0_r in *.
    destruct (sse_formula_mapped op a b d st Ha Hb Hd) as [v ->]. simpl.
    set (st1 := mark (Some d) _).
    assert (dom (mem st1) = dom (mem st)) as Hdom.
    { unfold st1; simpl. apply dom_insert_lookup_L. done. }
    destruct (IH fuel (n - 1)%Z (a + 1) (b + 1) (d + 1) st1) as (st' & Hrun & Happ & Hdom' & Hout);
      [lia | lia | lia | |].
    { intros i Hi. destruct (Hmap (S i) ltac:(lia)) as (Hai & Hbi & Hdi).
      rewrite <- !elem_of_dom, Hdom, !elem_of_dom.
      by replace (a + 1 + i) with (a + S i) by lia;
         replace (b + 1 + i) with (b + S i) by lia;
         replace (d + 1 + i) with (d + S i) by lia. }
    exists st'. split; [exact Hrun|]. split_and!.
    + rewrite Happ. unfold st1; simpl. rewrite <- app_assoc. simpl.
      by replace (d + 1) with (S d) by lia.
    + by rewrite Hdom'.
    + intros j Hj. rewrite Hout by lia. unfold st1; simpl.
      apply lookup_insert_ne. lia.
Qed.

(** One pixel of the SIMD loop, by value. *)
Lemma sse_formula_value op a b d (st : Store g4float) va vb :
  mem st !! a = Some va → mem st !! b = Some vb → is_Some (mem st !! d) →
  sse_formula op (Some a) (Some b) (Some d) st
  = Ret {| mem := <[d := sse_value op (bool_decide (d = a)) (bool_decide (d = b))
                                   va vb]> (mem st);
           applied := applied st |}.
Proof.
  intros Ha Hb [vd Hd].
  destruct op; unfold sse_formula, sse_value, read, write;
    rewrite ?Nat.add_0_r, ?Ha, ?Hb; cbn [mbind Result_bind];
    rewrite ?Nat.add_0_r, ?Ha, ?Hb, ?Hd; cbn [mbind Result_bind mem applied];
    try done.
  - rewrite !lookup_insert_eq. cbn [mbind Result_bind].
    case_bool_decide as Hdb.
    + subst b. rewrite lookup_insert_eq. cbn [mbind Result_bind].
      by rewrite insert_insert_eq.
    + rewrite lookup_insert_ne, Hb by done. cbn [mbind Result_bind].
      by rewrite insert_insert_eq.
  - rewrite !lookup_insert_eq. cbn [mbind Result_bind].
    case_bool_decide as Hda.
    + subst a. rewrite lookup_insert_eq. cbn [mbind Result_bind].
      by rewrite insert_insert_eq.
    + rewrite lookup_insert_ne, Ha by done. cbn [mbind Result_bind].
      by rewrite insert_insert_eq.
Qed.

(** The SIMD loop by value, when the output does not lie ahead of the
    vectors it is computed from. *)
Lemma simd_loop_values op (k : nat) :
  ∀ fuel (n : Z) a b d (st : Store g4float),
    n = (Z.of_nat k + 1)%Z → (n < 2 ^ 63)%Z → k ≤ fuel →
    (∀ i, i < k → is_Some (mem st !! (a + i)) ∧ is_Some (mem st !! (b + i)) ∧
                  is_Some (mem st !! (d + i))) →
    d ≤ a ∨ a + k ≤ d → d ≤ b ∨ b + k ≤ d →
    ∃ st', simd_loop op fuel n (Some a) (Some b) (Some d) st = Ret st' ∧
      ∀ t va vb, t < k →
        mem st !! (a + t) = Some va → mem st !! (b + t) = Some vb →
        mem st' !! (d + t)
        = Some (sse_value op (bool_decide (d = a)) (bool_decide (d = b)) va vb).
Proof.
  induction k as [|k IH]; intros fuel n a b d st Hn Hrange Hfuel Hmap Hda Hdb.
  - exists st. subst n. split; [|intros; lia]. by destruct fuel.
  - destruct fuel as [|fuel]; [lia|]. cbn [simd_loop]. cbv zeta.
    rewrite glong_wrap_id by lia.
    destruct (Z.eqb_spec (n - 1) 0) as [?|_]; [lia|].
    destruct (Hmap 0 ltac:(lia)) as ([va0 Ha0] & [vb0 Hb0] & Hd0).
    rewrite !Nat.add_0_r in *.
    rewrite (sse_formula_value op a b d st va0 vb0 Ha0 Hb0 Hd0).
    cbn [mbind Result_bind advance fmap option_fmap option_map].
    set (v := sse_value op _ _ va0 vb0).
    set (st1 := mark (Some d) _).
    assert (mem st1 = <[d := v]> (mem st)) as Hst1 by done.
    assert (∀ i, i < k →
              is_Some (mem st1 !! (a + 1 + i)) ∧ is_Some (mem st1 !! (b + 1 + i)) ∧
              is_Some (mem st1 !! (d + 1 + i))) as Hmap1.
    { intros i Hi. destruct (Hmap (S i) ltac:(lia)) as (Hai & Hbi & Hdi).
      rewrite Hst1, !lookup_insert_is_Some.
      replace (a + 1 + i) with (a + S i) by lia.
      replace (b + 1 + i) with (b + S i) by lia.
      replace (d + 1 + i) with (d + S i) by lia.
      split_and!;
        match goal with
        | |- ?x = ?y ∨ _ => destruct (decide (x = y)); [by left|by right]
        end. }
    destruct (IH fuel (n - 1)%Z (a + 1) (b + 1) (d + 1) st1)
      as (st' & Hrun & Hvals); [lia | lia | lia | done | lia | lia |].
    destruct (simd_loop_runs op k fuel (n - 1)%Z (a + 1) (b + 1) (d + 1) st1)
      as (st'' & Hrun' & _ & _ & Hout); [lia | lia | lia | done |].
    assert (st'' = st') as -> by congruence.
    exists st'. split; [exact Hrun|].
    intros [|t] va vb Ht Hva Hvb.
    + rewrite Nat.add_0_r in *. rewrite Hout by lia.
      assert (va = va0) as -> by congruence.
      assert (vb = vb0) as -> by congruence.
      rewrite Hst1. apply lookup_insert_eq.
    + replace (d + S t) with (d + 1 + t) by lia.
      rewrite (Hvals t va vb); [| lia | |].
      * f_equal. f_equal; apply bool_decide_ext; lia.
      * rewrite Hst1, lookup_insert_ne by lia.
        by replace (a + 1 + t) with (a + S t) by lia.
      * rewrite Hst1, lookup_insert_ne by lia.
        by replace (b + 1 + t) with (b + S t) by lia.
Qed.

(** C8.  The scalar [process] of every operation, for every pixel count
    and whatever the other two buffers are: with a NULL aux buffer it
    returns TRUE at once, the memory and the log of produced pixels being
    what they were. *)
Theorem process_null_aux (op : Op) (in_buf out_buf : option nat) (n_pixels : Z)
    (st : Store gfloat) :
  process op in_buf None out_buf n_pixels st = Ret (true, st) ∧
  ∀ st', process op in_buf None out_buf n_pixels st = Ret (true, st') →
         mem st' = mem st ∧ applied st' = applied st.
Proof.
  split; [reflexivity|]. unfold process. by intros st' [= <-].
Qed.

(** C9.  The SIMD variant of every operation.  With the three buffers
    mapped and [n_pixels = n >= 1] it returns TRUE after applying the
    formula at the [n - 1] consecutive output positions [D, D+1, ...,
    D+n-2] and nowhere else: the loop body runs [n - 1] times and the last
    pixel is not produced.  When the output does not lie ahead of the aux
    and input vectors it is computed from (in place and disjoint buffers
    included), each of these [n - 1] output vectors holds the value of the
    operation's formula on the aux and input vectors that were at the same
    index before the call.  With a NULL input buffer or [n_pixels = 0] it
    returns TRUE and leaves the memory and the log as they were. *)
Theorem process_gegl4float_pixels (op : Op) (st : Store g4float) :
  (∀ (a b d : nat) (n : Z),
     (1 ≤ n < 2 ^ 63)%Z →
     (∀ i, i < Z.to_nat (n - 1) →
           is_Some (mem st !! (a + i)) ∧ is_Some (mem st !! (b + i)) ∧
           is_Some (mem st !! (d + i))) →
     ∃ st', process_gegl4float op (Some b) (Some a) (Some d) n st = Ret (true, st') ∧
            applied st' = applied st ++ seq d (Z.to_nat (n - 1)) ∧
            dom (mem st') = dom (mem st) ∧
            (∀ j, j < d ∨ d + Z.to_nat (n - 1) ≤ j → mem st' !! j = mem st !! j) ∧
            (d ≤ a ∨ a + Z.to_nat (n - 1) ≤ d →
             d ≤ b ∨ b + Z.to_nat (n - 1) ≤ d →
             ∀ t va vb, t < Z.to_nat (n - 1) →
               mem st !! (a + t) = Some va → mem st !! (b + t) = Some vb →
               mem st' !! (d + t)
               = Some (sse_value op (bool_decide (d = a)) (bool_decide (d = b))
                                 va vb))) ∧
  (∀ (in_buf aux_buf out_buf : option nat) (n : Z),
     in_buf = None ∨ n = 0%Z →
     process_gegl4float op in_buf aux_buf out_buf n st = Ret (true, st)).
Proof.
  split.
  - intros a b d n Hn Hmap. unfold process_gegl4float.
    rewrite bool_decide_eq_false_2 by done. simpl.
    destruct (Z.eqb_spec n 0) as [?|_]; [lia|].
    rewrite Z.mod_small by lia.
    destruct (simd_loop_runs op (Z.to_nat (n - 1)) (Z.to_nat (n - 1)) n a b d st)
      as (st' & Hrun & Happ & Hdom & Hout); [lia | lia | lia | done |].
    rewrite Hrun. exists st'. split_and!; try done.
    intros Hda Hdb.
    destruct (simd_loop_values op (Z.to_nat (n - 1)) (Z.to_nat (n - 1)) n a b d st)
      as (st'' & Hrun' & Hvals); [lia | lia | lia | done | done | done |].
    by assert (st'' = st') as -> by congruence.
  - intros in_buf aux_buf out_buf n [-> | ->]; unfold process_gegl4float.
    + by rewrite bool_decide_eq_true_2.
    + by rewrite orb_true_r.
Qed.

End compositor_facts.

(** *** The scalar loop *)

Section scalar_facts.

Context {gfloat g4float : Type} `{!FloatOps gfloat g4float}.

Lemma mapped_insert {V} (m : gmap nat V) i j v :
  is_Some (m !! j) → is_Some (<[i := v]> m !! j).
Proof.
  intros Hj. rewrite lookup_insert_is_Some. destruct (decide (i = j)); eauto.
Qed.

Ltac access Hi Ha Ho :=
  first
    [ match goal with
      | |- context [read (Some ?p) ?k ?s] =>
          let v := fresh "v" in
          destruct (read_mapped p k s) as [v ->];
          [ simpl; repeat apply mapped_insert;
            first [apply Hi | apply Ha | apply Ho]; lia | ]
      end
    | match goal with
      | |- context [write (Some ?p) ?k ?v ?s] =>
          rewrite (write_mapped p k v s)
            by (simpl; repeat apply mapped_insert;
                first [apply Hi | apply Ha | apply Ho]; lia)
      end ];
  cbn [mbind Result_bind mem applied].

(** One pixel, whatever the overlap of the three buffers: on mapped
    addresses the body ends normally, having stored into the four
    components of the output pixel only. *)
Lemma pixel_mapped op i a o (st : Store gfloat) :
  (∀ j, j < 4 → is_Some (mem st !! (i + j))) →
  (∀ j, j < 4 → is_Some (mem st !! (a + j))) →
  (∀ j, j < 4 → is_Some (mem st !! (o + j))) →
  ∃ v0 v1 v2 v3,
    pixel op (Some i) (Some a) (Some o) st
    = Ret {| mem := <[o + 3 := v3]> (<[o + 2 := v2]> (<[o + 1 := v1]>
                      (<[o + 0 := v0]> (mem st))));
             applied := applied st ++ [o] |}.
Proof.
  intros Hi Ha Ho. unfold pixel, colours.
  do 12 access Hi Ha Ho.
  by eexists _, _, _, _.
Qed.

Lemma pixel_dom o (st st1 : Store gfloat) v0 v1 v2 v3 :
  (∀ j, j < 4 → is_Some (mem st !! (o + j))) →
  mem st1 = <[o + 3 := v3]> (<[o + 2 := v2]> (<[o + 1 := v1]>
              (<[o + 0 := v0]> (mem st)))) →
  dom (mem st1) = dom (mem st) ∧
  ∀ x, x < o ∨ o + 4 ≤ x → mem st1 !! x = mem st !! x.
Proof.
  intros Ho ->. split.
  - apply set_eq. intros x. rewrite !elem_of_dom, !lookup_insert_is_Some.
    split; [|destruct (decide (o + 3 = x)), (decide (o + 2 = x)),
               (decide (o + 1 = x)), (decide (o + 0 = x)); naive_solver].
    intros [<-|[_ [<-|[_ [<-|[_ [<-|[_ ?]]]]]]]]; try done; apply Ho; lia.
  - intros x Hx. by rewrite !lookup_insert_ne by lia.
Qed.

(** The scalar loop over [k] pixels, whatever the overlap of the buffers. *)
Lemma pixels_runs op (k : nat) :
  ∀ fuel (c n : Z) i a o (st : Store gfloat),
    n = (c + Z.of_nat k)%Z → (n ≤ INT_MAX)%Z → k ≤ fuel →
    (∀ j, j < 4 * k → is_Some (mem st !! (i + j))) →
    (∀ j, j < 4 * k → is_Some (mem st !! (a + j))) →
    (∀ j, j < 4 * k → is_Some (mem st !! (o + j))) →
    ∃ st', pixels op fuel c n (Some i) (Some a) (Some o) st = Ret st' ∧
           applied st' = applied st ++ ((λ t, o + 4 * t) <$> seq 0 k) ∧
           dom (mem st') = dom (mem st) ∧
           ∀ x, x < o ∨ o + 4 * k ≤ x → mem st' !! x = mem st !! x.
Proof.
  induction k as [|k IH]; intros fuel c n i a o st Hn Hmax Hfuel Hi Ha Ho.
  - exists st. subst n. destruct fuel; simpl;
      rewrite Z.add_0_r, Z.ltb_irrefl, app_nil_r; done.
  - destruct fuel as [|fuel]; [lia|]. simpl.
    destruct (Z.ltb_spec c n) as [_|?]; [|lia].
    destruct (pixel_mapped op i a o st) as (v0 & v1 & v2 & v3 & ->);
      [intros; apply Hi; lia | intros; apply Ha; lia | intros; apply Ho; lia |].
    cbn [mbind Result_bind].
    destruct (Z.ltb_spec c INT_MAX) as [_|?]; [|lia].
    set (st1 := {| mem := _; applied := _ |}).
    destruct (pixel_dom o st st1 v0 v1 v2 v3) as [Hdom Hout];
      [intros; apply Ho; lia | done |].
    destruct (IH fuel (c + 1)%Z n (i + 4) (a + 4) (o + 4) st1)
      as (st' & Hrun & Happ & Hdom' & Hout'); [lia | lia | lia | | | |].
    { intros j Hj. rewrite <- elem_of_dom, Hdom, elem_of_dom.
      replace (i + 4 + j) with (i + (4 + j)) by lia. apply Hi. lia. }
    { intros j Hj. rewrite <- elem_of_dom, Hdom, elem_of_dom.
      replace (a + 4 + j) with (a + (4 + j)) by lia. apply Ha. lia. }
    { intros j Hj. rewrite <- elem_of_dom, Hdom, elem_of_dom.
      replace (o + 4 + j) with (o + (4 + j)) by lia. apply Ho. lia. }
    exists st'. split; [exact Hrun|]. split_and!.
    + rewrite Happ. unfold st1; cbn [applied]. rewrite <- app_assoc.
      f_equal. cbn [seq fmap list_fmap app]. f_equal; [lia|].
      rewrite <- fmap_S_seq, <- list_fmap_compose.
      apply list_fmap_ext. intros ? t _. simpl. lia.
    + by rewrite Hdom'.
    + intros x Hx. rewrite Hout' by lia. apply Hout. lia.
Qed.


(** One pixel when the output pixel does not lie ahead of the input and aux
    pixels it is computed from: each component stored is the formula on the
    components the memory held before. *)
Lemma pixel_values op i a o (st : Store gfloat) :
  (∀ j, j < 4 → is_Some (mem st !! (i + j))) →
  (∀ j, j < 4 → is_Some (mem st !! (a + j))) →
  (∀ j, j < 4 → is_Some (mem st !! (o + j))) →
  o ≤ i ∨ i + 4 ≤ o → o ≤ a ∨ a + 4 ≤ o →
  ∃ st1, pixel op (Some i) (Some a) (Some o) st = Ret st1 ∧
    ∀ aA aB, mem st !! (i + 3) = Some aB → mem st !! (a + 3) = Some aA →
      mem st1 !! (o + 3) = Some (a_formula op aA aB) ∧
      ∀ j cA cB, j < 3 →
        mem st !! (i + j) = Some cB → mem st !! (a + j) = Some cA →
        mem st1 !! (o + j) = Some (c_formula op cA cB aA aB).
Proof.
  intros Hi Ha Ho Hoi Hoa.
  destruct (Hi 0 ltac:(lia)) as [b0 Hb0]. destruct (Hi 1 ltac:(lia)) as [b1 Hb1].
  destruct (Hi 2 ltac:(lia)) as [b2 Hb2]. destruct (Hi 3 ltac:(lia)) as [b3 Hb3].
  destruct (Ha 0 ltac:(lia)) as [a0 Ha0]. destruct (Ha 1 ltac:(lia)) as [a1 Ha1].
  destruct (Ha 2 ltac:(lia)) as [a2 Ha2]. destruct (Ha 3 ltac:(lia)) as [a3 Ha3].
  destruct (Ho 0 ltac:(lia)) as [w0 Hw0]. destruct (Ho 1 ltac:(lia)) as [w1 Hw1].
  destruct (Ho 2 ltac:(lia)) as [w2 Hw2]. destruct (Ho 3 ltac:(lia)) as [w3 Hw3].
  unfold pixel. cbn [colours read write mbind Result_bind mem applied].
  repeat (rewrite ?lookup_insert_ne by lia;
          first [ rewrite Hb0 | rewrite Hb1 | rewrite Hb2 | rewrite Hb3
                | rewrite Ha0 | rewrite Ha1 | rewrite Ha2 | rewrite Ha3
                | rewrite Hw0 | rewrite Hw1 | rewrite Hw2 | rewrite Hw3 ];
          cbn [colours read write mbind Result_bind mem applied]).
  eexists. split; [reflexivity|]. cbn [mark mem].
  intros aA aB HB HA. assert (aB = b3) as -> by congruence.
  assert (aA = a3) as -> by congruence.
  split; [apply lookup_insert_eq|].
  intros j cA cB Hj HcB HcA.
  destruct j as [|[|[|j]]]; [| | |lia].
  - assert (cB = b0) as -> by congruence. assert (cA = a0) as -> by congruence.
    repeat (rewrite lookup_insert_ne by lia). apply lookup_insert_eq.
  - assert (cB = b1) as -> by congruence. assert (cA = a1) as -> by congruence.
    repeat (rewrite lookup_insert_ne by lia). apply lookup_insert_eq.
  - assert (cB = b2) as -> by congruence. assert (cA = a2) as -> by congruence.
    repeat (rewrite lookup_insert_ne by lia). apply lookup_insert_eq.
Qed.

Lemma pixels_values op (k : nat) :
  ∀ fuel (c n : Z) i a o (st : Store gfloat),
    n = (c + Z.of_nat k)%Z → (n ≤ INT_MAX)%Z → k ≤ fuel →
    (∀ j, j < 4 * k → is_Some (mem st !! (i + j))) →
    (∀ j, j < 4 * k → is_Some (mem st !! (a + j))) →
    (∀ j, j < 4 * k → is_Some (mem st !! (o + j))) →
    o ≤ i ∨ i + 4 * k ≤ o → o ≤ a ∨ a + 4 * k ≤ o →
    ∃ st', pixels op fuel c n (Some i) (Some a) (Some o) st = Ret st' ∧
      ∀ t aA aB, t < k →
        mem st !! (i + 4 * t + 3) = Some aB →
        mem st !! (a + 4 * t + 3) = Some aA →
        mem st' !! (o + 4 * t + 3) = Some (a_formula op aA aB) ∧
        ∀ j cA cB, j < 3 →
          mem st !! (i + 4 * t + j) = Some cB →
          mem st !! (a + 4 * t + j) = Some cA →
          mem st' !! (o + 4 * t + j) = Some (c_formula op cA cB aA aB).
Proof.
  induction k as [|k IH]; intros fuel c n i a o st Hn Hmax Hfuel Hi Ha Ho Hoi Hoa.
  - exists st. subst n. split; [|intros; lia].
    destruct fuel; simpl; by rewrite Z.add_0_r, Z.ltb_irrefl.
  - destruct fuel as [|fuel]; [lia|]. cbn [pixels].
    destruct (Z.ltb_spec c n) as [_|?]; [|lia].
    destruct (pixel_values op i a o st) as (st1 & Hpix & Hvals);
      [intros; apply Hi; lia | intros; apply Ha; lia | intros; apply Ho; lia
      | lia | lia |].
    destruct (pixel_mapped op i a o st) as (v0 & v1 & v2 & v3 & Hpix');
      [intros; apply Hi; lia | intros; apply Ha; lia | intros; apply Ho; lia |].
    rewrite Hpix. cbn [mbind Result_bind].
    destruct (Z.ltb_spec c INT_MAX) as [_|?]; [|lia].
    rewrite Hpix in Hpix'. injection Hpix' as Hst1.
    destruct (pixel_dom o st st1 v0 v1 v2 v3) as [Hdom Hout];
      [intros; apply Ho; lia | by rewrite Hst1 |].
    assert (∀ base j, j < 4 * S k → is_Some (mem st !! (base + j)) →
                      is_Some (mem st1 !! (base + j))) as Hkeep.
    { intros base j _. by rewrite <- !elem_of_dom, Hdom. }
    assert (∀ j, j < 4 * k → is_Some (mem st1 !! (i + 4 + j))) as Hi1.
    { intros j Hj. replace (i + 4 + j) with (i + (4 + j)) by lia.
      apply Hkeep; [lia|]. apply Hi. lia. }
    assert (∀ j, j < 4 * k → is_Some (mem st1 !! (a + 4 + j))) as Ha1.
    { intros j Hj. replace (a + 4 + j) with (a + (4 + j)) by lia.
      apply Hkeep; [lia|]. apply Ha. lia. }
    assert (∀ j, j < 4 * k → is_Some (mem st1 !! (o + 4 + j))) as Ho1.
    { intros j Hj. replace (o + 4 + j) with (o + (4 + j)) by lia.
      apply Hkeep; [lia|]. apply Ho. lia. }
    destruct (IH fuel (c + 1)%Z n (i + 4) (a + 4) (o + 4) st1)
      as (st' & Hrun & Hvals'); [lia | lia | lia | done | done | done | lia | lia |].
    destruct (pixels_runs op k fuel (c + 1)%Z n (i + 4) (a + 4) (o + 4) st1)
      as (st'' & Hrun' & _ & _ & Hout'); [lia | lia | lia | done | done | done |].
    assert (st'' = st') as -> by congruence.
    exists st'. split; [exact Hrun|].
    intros [|t] aA aB Ht HB HA.
    + rewrite Nat.mul_0_r, !Nat.add_0_r in HB, HA.
      destruct (Hvals aA aB HB HA) as [Halpha Hcol]. split.
      * rewrite Hout' by lia. by rewrite Nat.mul_0_r, Nat.add_0_r.
      * intros j cA cB Hj HcB HcA.
        rewrite Nat.mul_0_r, !Nat.add_0_r in HcB, HcA.
        rewrite Hout' by lia. rewrite Nat.mul_0_r, Nat.add_0_r. by apply Hcol.
    + replace (i + 4 * S t + 3) with (i + 4 + 4 * t + 3) in HB by lia.
      replace (a + 4 * S t + 3) with (a + 4 + 4 * t + 3) in HA by lia.
      rewrite <- Hout in HB by lia. rewrite <- Hout in HA by lia.
      destruct (Hvals' t aA aB ltac:(lia) HB HA) as [Halpha Hcol]. split.
      * by replace (o + 4 * S t + 3) with (o + 4 + 4 * t + 3) by lia.
      * intros j cA cB Hj HcB HcA.
        replace (i + 4 * S t + j) with (i + 4 + 4 * t + j) in HcB by lia.
        replace (a + 4 * S t + j) with (a + 4 + 4 * t + j) in HcA by lia.
        rewrite <- Hout in HcB by lia. rewrite <- Hout in HcA by lia.
        replace (o + 4 * S t + j) with (o + 4 + 4 * t + j) by lia.
        by apply Hcol.
Qed.

(** X8.  What the scalar [process] computes.  When the output buffer
    starts at or before the input buffer, or after its end, and likewise for
    the aux buffer (so in particular when it works in place or on disjoint
    buffers), every output pixel holds the operation's alpha formula and,
    in each colour component, its colour formula, applied to the
    components that the input and aux pixels at the same index held before
    the call. *)
Theorem process_values (op : Op) (i a o : nat) (n : Z) (st : Store gfloat) :
  (0 ≤ n ≤ INT_MAX)%Z →
  (∀ j, j < 4 * Z.to_nat n →
        is_Some (mem st !! (i + j)) ∧ is_Some (mem st !! (a + j)) ∧
        is_Some (mem st !! (o + j))) →
  o ≤ i ∨ i + 4 * Z.to_nat n ≤ o → o ≤ a ∨ a + 4 * Z.to_nat n ≤ o →
  ∃ st', process op (Some i) (Some a) (Some o) n st = Ret (true, st') ∧
    ∀ t aA aB, t < Z.to_nat n →
      mem st !! (i + 4 * t + 3) = Some aB →
      mem st !! (a + 4 * t + 3) = Some aA →
      mem st' !! (o + 4 * t + 3) = Some (a_formula op aA aB) ∧
      ∀ j cA cB, j < 3 →
        mem st !! (i + 4 * t + j) = Some cB →
        mem st !! (a + 4 * t + j) = Some cA →
        mem st' !! (o + 4 * t + j) = Some (c_formula op cA cB aA aB).
Proof.
  intros Hn Hmap Hoi Hoa. unfold process.
  destruct (pixels_values op (Z.to_nat n) (Z.to_nat n) 0 n i a o st)
    as (st' & -> & Hvals);
    [lia | lia | lia | intros; by apply Hmap.. | done | done |].
  by exists st'.
Qed.

(** X9.  The scalar [process] tests the aux pointer only.  With a non-NULL
    aux buffer and at least one pixel to do, a NULL output buffer is
    stored through in the first round of the loop, whatever the operation,
    and a NULL input buffer is loaded from for a value that is used by
    every operation but [clear] and [src], whose formulas mention neither
    [cB] nor [aB]. *)
Theorem process_null_in_or_out (op : Op) (in_buf out_buf : option nat) (a : nat)
    (n : Z) (st : Store gfloat) :
  (1 ≤ n)%Z →
  out_buf = None ∨ (in_buf = None ∧ op ≠ clear ∧ op ≠ src) →
  process op in_buf (Some a) out_buf n st = Fault.
Proof.
  intros Hn Hnull. unfold process.
  destruct (Z.to_nat n) as [|fuel] eqn:Hfuel; [lia|]. cbn [pixels].
  destruct (Z.ltb_spec 0 n) as [_|?]; [|lia].
  assert (pixel op in_buf (Some a) out_buf st = Fault) as ->; [|done].
  unfold pixel. destruct in_buf as [i|]; [|done].
  destruct Hnull as [-> | ([=] & _)]. unfold read.
  destruct (mem st !! (i + 3)); [|done]. cbn [mbind Result_bind].
  destruct (mem st !! (a + 3)); [|done]. cbn [mbind Result_bind colours].
  unfold read.
  destruct (mem st !! (i + 0)); [|done]. cbn [mbind Result_bind].
  by destruct (mem st !! (a + 0)).
Qed.

(** X10.  With [n_pixels <= 0] the scalar [process] returns TRUE without a
    single access, whatever the three pointers are, NULL or unmapped. *)
Theorem process_nonpositive (op : Op) (in_buf aux_buf out_buf : option nat)
    (n : Z) (st : Store gfloat) :
  (n ≤ 0)%Z → process op in_buf aux_buf out_buf n st = Ret (true, st).
Proof.
  intros Hn. unfold process. destruct aux_buf; [|done].
  replace (Z.to_nat n) with 0 by lia. cbn [pixels].
  by destruct (Z.ltb_spec 0 n) as [?|_]; [lia|].
Qed.

End scalar_facts.

(** *** Where the loops stop *)

Section loop_ends.

Context {gfloat g4float : Type} `{!FloatOps gfloat g4float}.

Lemma glong_wrap_mod z : (glong_wrap z mod 2 ^ 64 = z mod 2 ^ 64)%Z.
Proof.
  unfold glong_wrap. rewrite Zminus_mod_idemp_l. f_equal. lia.
Qed.

Lemma glong_wrap_pred z :
  (0 < z mod 2 ^ 64 → (glong_wrap z - 1) mod 2 ^ 64 = z mod 2 ^ 64 - 1)%Z.
Proof.
  intros Hz. rewrite <- Zminus_mod_idemp_l, glong_wrap_mod.
  apply Z.mod_small.
  pose proof (Z.mod_pos_bound z (2 ^ 64) ltac:(lia)). lia.
Qed.

Lemma read_cases {V} p k (st : Store V) :
  read p k st = Fault ∨ ∃ v, read p k st = Ret v.
Proof. unfold read. destruct p; [|by left]. case_match; eauto. Qed.

Lemma write_cases {V} p k (v : V) (st : Store V) :
  write p k v st = Fault ∨
  ∃ st', write p k v st = Ret st' ∧ dom (mem st') = dom (mem st).
Proof.
  unfold write. destruct p as [a|]; [|by left].
  destruct (mem st !! (a + k)) eqn:Hk; [|by left].
  right. eexists. split; [done|]. simpl. by apply dom_insert_lookup_L.
Qed.

Ltac formula :=
  repeat match goal with
    | |- context [read ?p ?k ?s] =>
        destruct (read_cases p k s) as [-> | [? ->]];
        cbn [mbind Result_bind]; [by left|]
    | |- context [write ?p ?k ?v ?s] =>
        destruct (write_cases p k v s) as [-> | (? & -> & ?)];
        cbn [mbind Result_bind]; [by left|]
    end.

(** The formula of one pixel either faults or ends with the same addresses
    mapped as before. *)
Lemma sse_formula_cases op A B D (st : Store g4float) :
  sse_formula op A B D st = Fault ∨
  ∃ st', sse_formula op A B D st = Ret st' ∧ dom (mem st') = dom (mem st).
Proof.
  destruct op; unfold sse_formula; formula;
    right; eexists; (split; [done|congruence]).
Qed.

(** Every formula stores through [D]. *)
Lemma sse_formula_no_output op A B D (st : Store g4float) :
  (∀ d, D = Some d → mem st !! d = None) →
  sse_formula op A B D st = Fault.
Proof.
  intros HD.
  assert (∀ v, write D 0 v st = Fault) as Hw.
  { intros v. unfold write. destruct D as [d|]; [|done].
    by rewrite Nat.add_0_r, (HD d eq_refl). }
  destruct op; unfold sse_formula;
    repeat match goal with
      | |- context [read ?p ?k ?s] =>
          destruct (read_cases p k s) as [-> | [? ->]];
          cbn [mbind Result_bind]; [done|]
      end;
    by rewrite Hw.
Qed.

Lemma simd_loop_faults op (t : nat) :
  ∀ fuel (n : Z) A B d (st : Store g4float),
    (Z.of_nat t < (n - 1) mod 2 ^ 64)%Z → t < fuel →
    mem st !! (d + t) = None →
    simd_loop op fuel n A B (Some d) st = Fault.
Proof.
  induction t as [|t IH]; intros fuel n A B d st Ht Hfuel Hd;
    (destruct fuel as [|fuel]; [lia|]); cbn [simd_loop]; cbv zeta;
    (destruct (Z.eqb_spec (glong_wrap (n - 1)) 0) as [Hz|_];
     [pose proof (glong_wrap_mod (n - 1)) as Hm; rewrite Hz in Hm;
      rewrite Z.mod_0_l in Hm by lia; lia|]).
  - rewrite sse_formula_no_output; [done|].
    intros d' [= <-]. by rewrite Nat.add_0_r in Hd.
  - destruct (sse_formula_cases op A B (Some d) st) as [-> | (st1 & -> & Hdom)];
      [done|]. cbn [mbind Result_bind].
    apply IH.
    + rewrite glong_wrap_pred; lia.
    + lia.
    + cbn [mark mem]. apply not_elem_of_dom. rewrite Hdom.
      apply not_elem_of_dom. by replace (d + 1 + t) with (d + S t) by lia.
Qed.

(** X11.  The SIMD variant runs off its output buffer.  Its loop makes
    [(n_pixels - 1) mod 2^64] rounds: [n_pixels - 1] of them for a positive
    count, and for a negative count as many as it takes the decrement to
    wrap around to zero.  When the output address of one of these rounds is
    not mapped the call faults, whatever the operation and the aux
    pointer. *)
Theorem simd_off_buffer (op : Op) (b d : nat) (A : option nat) (n : Z) (t : nat)
    (st : Store g4float) :
  (- 2 ^ 63 ≤ n < 2 ^ 63)%Z → n ≠ 0%Z →
  (Z.of_nat t < (n - 1) mod 2 ^ 64)%Z → mem st !! (d + t) = None →
  process_gegl4float op (Some b) A (Some d) n st = Fault.
Proof.
  intros _ Hn Ht Hd. unfold process_gegl4float.
  rewrite bool_decide_eq_false_2 by done.
  destruct (Z.eqb_spec n 0) as [?|_]; [done|]. cbn [orb].
  rewrite (simd_loop_faults op t); [done|done|lia|done].
Qed.

(** X12.  The SIMD variant tests the input pointer only.  With a non-NULL
    input buffer and a count other than 0 and 1, a NULL output buffer
    faults for every operation, and a NULL aux buffer for every operation
    whose formula reads [*A], that is all but [clear] and [dst]. *)
Theorem simd_null_buffers (op : Op) (b : nat) (A D : option nat) (n : Z)
    (st : Store g4float) :
  (- 2 ^ 63 ≤ n < 2 ^ 63)%Z → n ≠ 0%Z → n ≠ 1%Z →
  D = None ∨ (A = None ∧ op ≠ clear ∧ op ≠ dst) →
  process_gegl4float op (Some b) A D n st = Fault.
Proof.
  intros Hrange Hn0 Hn1 Hnull. unfold process_gegl4float.
  rewrite bool_decide_eq_false_2 by done.
  destruct (Z.eqb_spec n 0) as [?|_]; [done|]. cbn [orb].
  assert (0 < (n - 1) mod 2 ^ 64)%Z as Hm.
  { pose proof (Z.mod_pos_bound (n - 1) (2 ^ 64) ltac:(lia)).
    destruct (decide ((n - 1) mod 2 ^ 64 = 0)%Z) as [Hz|?]; [|lia].
    apply Z.mod_divide in Hz as [q Hq]; lia. }
  destruct (Z.to_nat ((n - 1) mod 2 ^ 64)) as [|fuel] eqn:Hfuel; [lia|].
  cbn [simd_loop]; cbv zeta.
  destruct (Z.eqb_spec (glong_wrap (n - 1)) 0) as [Hz|_].
  { pose proof (glong_wrap_mod (n - 1)) as Hw. rewrite Hz in Hw.
    rewrite Z.mod_0_l in Hw by lia. lia. }
  destruct Hnull as [-> | (-> & Hclear & Hdst)].
  - by rewrite sse_formula_no_output.
  - by destruct op.
Qed.

Lemma read_info {V} p k (st : Store V) :
  read (Some p) k st = Fault ∨
  ∃ v, read (Some p) k st = Ret v ∧ p + k ∈ dom (mem st).
Proof.
  unfold read. destruct (mem st !! (p + k)) eqn:Hk; [|by left].
  right. eexists. split; [done|]. apply elem_of_dom. eauto.
Qed.

Lemma write_info {V} p k (v : V) (st : Store V) :
  write (Some p) k v st = Fault ∨
  ∃ st', write (Some p) k v st = Ret st' ∧ dom (mem st') = dom (mem st) ∧
         p + k ∈ dom (mem st).
Proof.
  unfold write. destruct (mem st !! (p + k)) eqn:Hk; [|by left].
  right. eexists. split; [done|]. simpl. split.
  - by apply dom_insert_lookup_L.
  - apply elem_of_dom. eauto.
Qed.

(** The body of the scalar loop either faults or ends with the same
    addresses mapped as before, and then all twelve components of the
    three pixels were mapped. *)
Lemma pixel_cases op i a o (st : Store gfloat) :
  pixel op (Some i) (Some a) (Some o) st = Fault ∨
  ∃ st', pixel op (Some i) (Some a) (Some o) st = Ret st' ∧
         dom (mem st') = dom (mem st) ∧
         ∀ j, j < 4 → i + j ∈ dom (mem st) ∧ a + j ∈ dom (mem st) ∧
                      o + j ∈ dom (mem st).
Proof.
  unfold pixel. cbn [colours].
  repeat match goal with
    | |- context [read (Some ?p) ?k ?s] =>
        destruct (read_info p k s) as [-> | (? & -> & ?)];
        cbn [mbind Result_bind]; [by left|]
    | |- context [write (Some ?p) ?k ?v ?s] =>
        destruct (write_info p k v s) as [-> | (? & -> & ? & ?)];
        cbn [mbind Result_bind]; [by left|]
    end.
  right. eexists. split; [done|]. cbn [mark mem].
  repeat match goal with
    | H : dom (mem _) = dom (mem _) |- _ => rewrite ?H in *; clear H
    end.
  split; [done|].
  intros j Hj. destruct j as [|[|[|[|j]]]]; [| | | |lia]; by split_and!.
Qed.

Lemma pixels_fault op (t : nat) :
  ∀ fuel (c n : Z) i a o (st : Store gfloat),
    (c + Z.of_nat t < n)%Z → t < fuel →
    (∃ j, j < 4 ∧ (i + 4 * t + j ∉ dom (mem st) ∨ a + 4 * t + j ∉ dom (mem st) ∨
                   o + 4 * t + j ∉ dom (mem st))) →
    pixels op fuel c n (Some i) (Some a) (Some o) st = Fault.
Proof.
  induction t as [|t IH]; intros fuel c n i a o st Hc Hfuel (j & Hj & Hun);
    (destruct fuel as [|fuel]; [lia|]); cbn [pixels];
    (destruct (Z.ltb_spec c n) as [_|?]; [|lia]);
    (destruct (pixel_cases op i a o st) as [-> | (st1 & -> & Hdom & Hmap)];
     [done|]); cbn [mbind Result_bind].
  - rewrite Nat.mul_0_r, !Nat.add_0_r in Hun.
    destruct (Hmap j Hj) as (? & ? & ?). by destruct Hun as [?|[?|?]].
  - destruct (Z.ltb_spec c INT_MAX) as [_|?]; [|done].
    apply IH; [lia | lia |]. exists j. split; [done|]. rewrite Hdom.
    by replace (i + 4 + 4 * t + j) with (i + 4 * S t + j) by lia;
       replace (a + 4 + 4 * t + j) with (a + 4 * S t + j) by lia;
       replace (o + 4 + 4 * t + j) with (o + 4 * S t + j) by lia.
Qed.

(** A value that the formulas do not mention has no part in what is
    stored. *)
Lemma unmentioned_ignored (op : Op) (cA cB aA aB x : gfloat) :
  (mentions_cB op = false →
   c_formula op cA x aA aB = c_formula op cA cB aA aB) ∧
  (mentions_cA op = false →
   c_formula op x cB aA aB = c_formula op cA cB aA aB) ∧
  (mentions_aB op = false →
   c_formula op cA cB aA x = c_formula op cA cB aA aB ∧
   a_formula op aA x = a_formula op aA aB) ∧
  (mentions_aA op = false →
   c_formula op cA cB x aB = c_formula op cA cB aA aB ∧
   a_formula op x aB = a_formula op aA aB).
Proof. by destruct op. Qed.

(** X13.  The scalar [process] stores every component of each of its
    [n_pixels] output pixels, and loads every component of the input and
    aux pixels: when a component of one of the first [n_pixels] output
    pixels is not mapped, or a component of an input or aux pixel whose
    value the operation uses, the call faults. *)
Theorem process_off_buffer (op : Op) (i a o : nat) (n : Z) (t j : nat)
    (st : Store gfloat) :
  (Z.of_nat t < n)%Z → j < 4 →
  mem st !! (o + 4 * t + j) = None ∨
    (mem st !! (i + 4 * t + j) = None ∧ uses_in op j = true) ∨
    (mem st !! (a + 4 * t + j) = None ∧ uses_aux op j = true) →
  process op (Some i) (Some a) (Some o) n st = Fault.
Proof.
  intros Ht Hj Hun. unfold process.
  rewrite (pixels_fault op t); [done | lia | lia |].
  exists j. split; [done|]. rewrite !not_elem_of_dom.
  destruct Hun as [?|[[? _]|[? _]]]; auto.
Qed.

Lemma pixels_alias (fuel : nat) :
  ∀ (c n : Z) in_ aux out (st : Store gfloat),
    pixels normal fuel c n in_ aux out st = pixels src_over fuel c n in_ aux out st ∧
    pixels over fuel c n in_ aux out st = pixels src_over fuel c n in_ aux out st.
Proof.
  induction fuel as [|fuel IH]; intros c n in_ aux out st; cbn [pixels]; [done|].
  change (pixel normal in_ aux out st) with (pixel src_over in_ aux out st).
  change (pixel over in_ aux out st) with (pixel src_over in_ aux out st).
  destruct (c <? n)%Z; [|done].
  destruct (pixel src_over in_ aux out st) as [st1| |]; cbn [mbind Result_bind];
    [|done..].
  destruct (c <? INT_MAX)%Z; [|done]. apply IH.
Qed.

(** X14.  The two operations of [other-blend.rb] are the [src_over] of
    [svg-12-porter-duff.rb] under other names: the scalar [process] of
    [normal] and of [over] ends as that of [src_over] does, on every
    input. *)
Theorem normal_and_over_are_src_over (in_buf aux_buf out_buf : option nat)
    (n : Z) (st : Store gfloat) :
  process normal in_buf aux_buf out_buf n st
    = process src_over in_buf aux_buf out_buf n st ∧
  process over in_buf aux_buf out_buf n st
    = process src_over in_buf aux_buf out_buf n st.
Proof.
  unfold process. destruct aux_buf as [a|]; [|done].
  destruct (pixels_alias (Z.to_nat n) 0 n in_buf (Some a) out_buf st) as [-> ->].
  done.
Qed.

End loop_ends.

Lemma two_pixels_mapped (j : nat) :
  j < 8 →
  is_Some (mem two_pixels !! (8 + j)) ∧ is_Some (mem two_pixels !! (0 + j)) ∧
  is_Some (mem two_pixels !! (16 + j)).
Proof.
  intros Hj.
  do 8 (destruct j as [|j]; [by vm_compute; split_and!; eexists|]). lia.
Defined.


Lemma process_values_witness :
  ∃ st', process src (Some 8) (Some 0) (Some 8) 2 two_pixels = Ret (true, st') ∧
         mem st' !! 15 = Some 107%Z.
Proof.
  destruct (process_values src 8 0 8 2 two_pixels) as (st' & H & Hvals);
    [ unfold INT_MAX; lia
    | intros j Hj; destruct (two_pixels_mapped j) as (? & ? & ?); [lia|done]
    | left; lia | right; simpl; lia |].
  destruct (Hvals 1 107%Z 115%Z) as [Halpha _]; [simpl; lia | reflexivity..|].
  exists st'. split; [exact H|exact Halpha].
Defined.

Lemma process_null_in_or_out_witness :
  process dst None (Some 0) (Some 16) 2 two_pixels = Fault.
Proof. apply process_null_in_or_out; [lia|right; by split_and!]. Defined.

Lemma process_nonpositive_witness :
  process src (Some 8) (Some 0) None (-1) two_pixels = Ret (true, two_pixels).
Proof. apply process_nonpositive. lia. Defined.

Lemma simd_off_buffer_witness :
  process_gegl4float src (Some 10) (Some 0) (Some 20) (-1) three_pixels = Fault.
Proof.
  apply (simd_off_buffer src 10 20 (Some 0) (-1) 3 three_pixels);
    [lia | lia | reflexivity | reflexivity].
Defined.

Lemma simd_null_buffers_witness :
  process_gegl4float src (Some 10) None (Some 20) 3 three_pixels = Fault.
Proof.
  apply simd_null_buffers; [lia | lia | lia | right; by split_and!].
Defined.

Lemma process_off_buffer_witness :
  process src (Some 8) (Some 0) (Some 16) 3 two_pixels = Fault.
Proof.
  apply (process_off_buffer src 8 0 16 3 2 0 two_pixels);
    [lia | lia | left; reflexivity].
Defined.

Example simd_src_three :
  ∃ st', process_gegl4float src (Some 10) (Some 0) (Some 20) 3 three_pixels
         = Ret (true, st') ∧
         applied st' = [20; 21] ∧
         mem st' !! 20 = Some (1, 1, 1, 1)%Z ∧
         mem st' !! 21 = Some (2, 2, 2, 1)%Z ∧
         mem st' !! 22 = Some (9, 9, 9, 9)%Z.
Proof. eexists. split; [vm_compute; reflexivity|]. by vm_compute. Qed.

Example simd_src_one :
  process_gegl4float src (Some 10) (Some 0) (Some 20) 1 three_pixels
  = Ret (true, three_pixels).
Proof. vm_compute. reflexivity. Qed.

Example scalar_src_two :
  ∃ st', process src (Some 8) (Some 0) (Some 16) 2 two_pixels = Ret (true, st') ∧
         applied st' = [16; 20] ∧
         (λ k, mem st' !! k) <$> seq 16 8
         = Some <$> [100; 101; 102; 103; 104; 105; 106; 107]%Z.
Proof. eexists. split; [vm_compute; reflexivity|]. by vm_compute. Qed.

Example scalar_null_aux :
  process src (Some 8) None (Some 16) 2 two_pixels = Ret (true, two_pixels).
Proof. reflexivity. Qed.


(** The tables [mentions_cB] to [mentions_aA] against the formulas, over the
    integers: a value is mentioned exactly when changing it changes what
    the formulas give. *)
Example mentions_matter (op : Op) :
  mentions_cB op
    = negb (bool_decide (c_formula op 0 0 2 2 = c_formula op 0 1 2 2))%Z ∧
  mentions_cA op
    = negb (bool_decide (c_formula op 0 0 2 2 = c_formula op 1 0 2 2))%Z ∧
  mentions_aB op
    = negb (bool_decide ((c_formula op 1 1 2 0, a_formula op 2 0)
                         = (c_formula op 1 1 2 1, a_formula op 2 1)))%Z ∧
  mentions_aA op
    = negb (bool_decide ((c_formula op 1 1 0 2, a_formula op 0 2)
                         = (c_formula op 1 1 1 2, a_formula op 1 2)))%Z.
Proof. by destruct op. Qed.

End CompositorFacts.
